(** * opencode-patcher-tools: the patch engine of [tools/apply-all-patches.ts]

    A shallow embedding of the configuration-driven patch manager: the
    data model read from [patches.config.yaml], the content verifier
    [checkPatchApplied], the applier [applyPatch], the dependency resolver
    [resolveDependencies], the batch driver [applyPatches] and the
    [enablePatch] / [disablePatch] operations, followed by the properties
    the specification states about them. *)

From stdpp Require Import base strings gmap list sets relations.
From Stdlib Require Import ZArith Lia.

#[local] Set Warnings "-clear-no-such-hyp".

Local Open Scope Z_scope.
Local Open Scope nat_scope.

(** ** Data model ([interface PatchConfig] and friends) *)

Record PatchCheckFile := {
  path : string;
  patterns : list string;
}.

(** [type] is declared as the literal ["grep"], but the document comes out
    of [YAML.parse] unchecked, and [checkPatchApplied] guards on it. *)
Record PatchCheck := {
  type : string;
  files : list PatchCheckFile;
}.

Record PatchConfig := {
  id : string;
  name : string;
  file : string;
  description : string;
  category : string;
  enabled : bool;
  dependencies : list string;
  checkApplied : PatchCheck;
}.

Record CategoryConfig := {
  cat_name : string;
  cat_description : string;
}.

Record Config := {
  patches : list PatchConfig;
  categories : gmap string CategoryConfig;
}.

(** [patches.find((p) => p.id === patchId)]: the first record with the id. *)
Definition findPatch (ps : list PatchConfig) (patchId : string) : option PatchConfig :=
  List.find (fun p => bool_decide (id p = patchId)) ps.

(** ** Dependency resolver *)

(** The two ways [resolveDependencies] ends the process: each prints its
    own message and calls [process.exit(1)]. *)
Inductive ConfigError :=
  | CircularDependency (patchId : string)   (* "Circular dependency detected: ${patchId}" *)
  | PatchNotFound (patchId : string).       (* "Patch not found: ${patchId}" *)

(** What a call yields: its return value, a process exit, or (in the model
    only) exhaustion of the recursion budget. *)
Inductive outcome (A : Type) :=
  | Done (a : A)
  | Exit (e : ConfigError)
  | OutOfFuel.
Arguments Done {A} a.
Arguments Exit {A} e.
Arguments OutOfFuel {A}.

(** The two [Set<string>] objects shared by all the recursive calls. *)
Record marks := {
  resolved : gset string;
  visiting : gset string;
}.

(** The body of [for (const depId of patch.dependencies)
    order.push(...resolveDependencies(patches, depId, resolved, visiting))],
    with the recursive call abstracted as [rec]. *)
Fixpoint forDeps (rec : string -> marks -> outcome (list string * marks))
    (deps : list string) (order : list string) (m : marks)
    : outcome (list string * marks) :=
  match deps with
  | [] => Done (order, m)
  | depId :: rest =>
      match rec depId m with
      | Done (sub, m1) => forDeps rec rest (order ++ sub) m1
      | Exit e => Exit e
      | OutOfFuel => OutOfFuel
      end
  end.

(** [resolveDependencies]; [fuel] bounds the number of nested frames (the
    outermost call counts as one). The returned marks are the state of the
    two sets when the call returns. *)
Fixpoint resolveDependencies (fuel : nat) (ps : list PatchConfig)
    (patchId : string) (m : marks) : outcome (list string * marks) :=
  match fuel with
  | O => OutOfFuel
  | S fuel' =>
      if bool_decide (patchId ∈ resolved m) then Done ([], m)
      else if bool_decide (patchId ∈ visiting m) then Exit (CircularDependency patchId)
      else
        match findPatch ps patchId with
        | None => Exit (PatchNotFound patchId)
        | Some patch =>
            let m1 := {| resolved := resolved m; visiting := {[patchId]} ∪ visiting m |} in
            match forDeps (resolveDependencies fuel' ps) (dependencies patch) [] m1 with
            | Done (order, m2) =>
                Done (order ++ [patchId],
                      {| resolved := {[patchId]} ∪ resolved m2;
                         visiting := visiting m2 ∖ {[patchId]} |})
            | Exit e => Exit e
            | OutOfFuel => OutOfFuel
            end
        end
  end.

(** [if (!applyOrder.includes(depId)) applyOrder.push(depId)] over [deps]. *)
Definition pushNew (applyOrder deps : list string) : list string :=
  fold_left (fun acc depId => if bool_decide (depId ∈ acc) then acc else acc ++ [depId])
            deps applyOrder.

(** The resolution loop of [applyPatches]: one [resolved] set for the whole
    loop, a fresh (default) [visiting] set per requested id. *)
Fixpoint resolveAll (fuel : nat) (ps : list PatchConfig) (requested : list string)
    (resolvedSet : gset string) (applyOrder : list string) : outcome (list string) :=
  match requested with
  | [] => Done applyOrder
  | patchId :: rest =>
      match resolveDependencies fuel ps patchId
              {| resolved := resolvedSet; visiting := ∅ |} with
      | Done (deps, m') => resolveAll fuel ps rest (resolved m') (pushNew applyOrder deps)
      | Exit e => Exit e
      | OutOfFuel => OutOfFuel
      end
  end.

(** The recursion budget the driver is run with: one frame per record of
    the configuration, plus the outermost call. It is never exhausted. *)
Definition enoughFuel (ps : list PatchConfig) : nat := S (length ps).

Definition computeApplyOrder (ps : list PatchConfig) (requested : list string)
    : outcome (list string) :=
  resolveAll (enoughFuel ps) ps requested ∅ [].

(** ** The dependency graph of a configuration *)

Section Graph.
Variable ps : list PatchConfig.

(** [x] depends on [y]: the record that the lookup finds for [x] lists [y]. *)
Definition dependsOn (x y : string) : Prop :=
  ∃ p, findPatch ps x = Some p ∧ y ∈ dependencies p.

(** Ids reachable from [x] along dependencies, [x] included. *)
Definition reachable (x y : string) : Prop := rtc dependsOn x y.

(** [c] lies on a dependency cycle. *)
Definition onCycle (c : string) : Prop := tc dependsOn c c.

Definition acyclic : Prop := ∀ c, ¬ onCycle c.

(** The ids that occur in the configuration. *)
Definition declared : gset string := list_to_set (id <$> ps).

(** Every id reachable from a requested one is declared. *)
Definition closedFrom (requested : list string) : Prop :=
  ∀ r y, r ∈ requested → reachable r y → y ∈ declared.

(** [z] occurs at a strictly smaller index than [y]. *)
Definition before (order : list string) (z y : string) : Prop :=
  ∃ i j, order !! i = Some z ∧ order !! j = Some y ∧ i < j.

(** [order] was appended while the resolved set grew from [R] to [R']:
    fresh, duplicate free, and every dependency of an emitted id was
    resolved beforehand or was emitted earlier. *)
Definition emitted (R : gset string) (order : list string) (R' : gset string) : Prop :=
  R' = R ∪ list_to_set order ∧
  NoDup order ∧
  (∀ y, y ∈ order → y ∉ R) ∧
  (∀ y z, y ∈ order → dependsOn y z → z ∈ R ∨ before order z y).

(** What an exit of the resolution loop reports: an id on a cycle, or an id
    that is not declared; either one reachable from a requested id. *)
Definition exitJustified (requested : list string) (e : ConfigError) : Prop :=
  match e with
  | CircularDependency c => onCycle c ∧ ∃ r, r ∈ requested ∧ reachable r c
  | PatchNotFound u => (u ∉ declared) ∧ ∃ r, r ∈ requested ∧ reachable r u
  end.

(** What a returning call [resolveDependencies(ps, x, resolved, visiting)]
    has done to the two sets and what it returns. *)
Definition resolvePost (x : string) (m : marks) (order : list string) (m' : marks) : Prop :=
  visiting m' = visiting m ∧
  emitted (resolved m) order (resolved m') ∧
  x ∈ resolved m' ∧
  (∀ y, y ∈ order → y ∉ visiting m) ∧
  (∀ y, y ∈ order → reachable x y ∧ y ∈ declared).
End Graph.

(** ** The environment: file system, shell commands, console *)

Inductive FileEntry :=
  | RegularFile (content : string)
  | Directory
  | Unreadable.

Abbreviation FileSystem := (gmap string FileEntry).

(** [existsSync(p)] *)
Definition existsSync (fs : FileSystem) (p : string) : bool :=
  bool_decide (is_Some (fs !! p)).

(** The collaborators the script calls but does not implement: the
    directories found by [detectToolsDir], [path.join], the line matcher
    of [grep], and the two [git apply] invocations (run inside
    [OPENCODE_DIR]), each git command giving its exit status. *)
Record Host := {
  OPENCODE_DIR : string;
  PATCHES_DIR : string;
  join : string -> string -> string;
  grepMatches : string -> string -> bool;
  gitApplyCheck : FileSystem -> string -> Z;
  gitApply : FileSystem -> string -> Z * FileSystem;
}.

(** Exit status of [grep -q pattern filePath]: 0 on a match, 1 on none,
    2 when the file cannot be read. *)
Definition grepQuiet (h : Host) (fs : FileSystem) (pattern filePath : string) : Z :=
  match fs !! filePath with
  | Some (RegularFile content) => if grepMatches h pattern content then 0%Z else 1%Z
  | Some Directory | Some Unreadable | None => 2%Z
  end.

(** A [$`...`] command either completes or throws a [ShellError] carrying
    the non-zero exit code. *)
Inductive ShellResult :=
  | ShellOk
  | ShellError (exitCode : Z).

Definition run (status : Z) : ShellResult :=
  if (status =? 0)%Z then ShellOk else ShellError status.

(** A [for ... of] loop whose body may throw: stops at the first throw. *)
Fixpoint forEach {A : Type} (body : A -> ShellResult) (l : list A) : ShellResult :=
  match l with
  | [] => ShellOk
  | a :: rest =>
      match body a with
      | ShellOk => forEach body rest
      | ShellError c => ShellError c
      end
  end.

Inductive Stream := Stdout | Stderr.

(** The lines the script prints, one constructor per message template. *)
Inductive Message :=
  | MsgPatchFileNotFound (patchFile : string)
  | MsgOpenCodeDirNotFound (dir : string)
  | MsgInitSubmodule
  | MsgFailedToApply (patchId : string)
  | MsgFailedWithExitCode (exitCode : Z)
  | MsgNoPatchesToApply
  | MsgConfigError (e : ConfigError)
  | MsgPatchesFailed (failed : nat)
  | MsgPatchNotFound (patchId : string)
  | MsgAlreadyEnabled (patchId : string)
  | MsgEnabled (patchId : string)
  | MsgAlreadyDisabled (patchId : string)
  | MsgCannotDisable (patchId : string)
  | MsgDependentsHeader
  | MsgDependent (patchId : string)
  | MsgDisabled (patchId : string).

Inductive GitCommand :=
  | GitApplyCheck (patchFile : string)
  | GitApply (patchFile : string).

(** Everything a run can change: the files, the console, the git
    processes spawned so far, and the documents handed to [saveConfig]. *)
Record World := {
  fs : FileSystem;
  console : list (Stream * Message);
  gitCalls : list GitCommand;
  saved : list Config;
}.

Definition print (s : Stream) (msgs : list Message) (w : World) : World :=
  {| fs := fs w; console := console w ++ ((fun m => (s, m)) <$> msgs);
     gitCalls := gitCalls w; saved := saved w |}.

Definition spawn (c : GitCommand) (w : World) : World :=
  {| fs := fs w; console := console w; gitCalls := gitCalls w ++ [c]; saved := saved w |}.

Definition setFs (fs' : FileSystem) (w : World) : World :=
  {| fs := fs'; console := console w; gitCalls := gitCalls w; saved := saved w |}.

Definition saveConfig (config : Config) (w : World) : World :=
  {| fs := fs w; console := console w; gitCalls := gitCalls w; saved := saved w ++ [config] |}.

(** How a function of the script ends: by returning, by [process.exit], or
    (in the model only) by exhausting the resolver's recursion budget. *)
Inductive ProcessResult :=
  | Returned
  | Exited (code : Z)
  | Unfinished.

(** ** Content verifier *)

Definition checkPatchApplied (h : Host) (fs : FileSystem) (patch : PatchConfig) : bool :=
  if negb (String.eqb (type (checkApplied patch)) "grep") then false
  else
    match forEach (fun file =>
             let filePath := join h (OPENCODE_DIR h) (path file) in
             forEach (fun pattern => run (grepQuiet h fs pattern filePath)) (patterns file))
           (files (checkApplied patch)) with
    | ShellOk => true
    | ShellError _ => false
    end.




(** ** Patch applier *)

(** The [catch] block of [applyPatch]. *)
Definition applyPatchCatch (h : Host) (patch : PatchConfig) (exitCode : Z) (w : World)
    : bool * World :=
  if checkPatchApplied h (fs w) patch then (true, w)
  else (false, print Stderr [MsgFailedToApply (id patch); MsgFailedWithExitCode exitCode] w).

Definition applyPatch (h : Host) (patch : PatchConfig) (w : World) : bool * World :=
  if checkPatchApplied h (fs w) patch then (true, w)
  else
    let patchFile := join h (PATCHES_DIR h) (file patch) in
    if negb (existsSync (fs w) patchFile) then
      (false, print Stderr [MsgPatchFileNotFound patchFile] w)
    else if negb (existsSync (fs w) (OPENCODE_DIR h)) then
      (false, print Stderr [MsgOpenCodeDirNotFound (OPENCODE_DIR h); MsgInitSubmodule] w)
    else
      let w1 := spawn (GitApplyCheck patchFile) w in
      match run (gitApplyCheck h (fs w1) patchFile) with
      | ShellError c => applyPatchCatch h patch c w1
      | ShellOk =>
          let '(status, fs') := gitApply h (fs w1) patchFile in
          let w2 := setFs fs' (spawn (GitApply patchFile) w1) in
          match run status with
          | ShellError c => applyPatchCatch h patch c w2
          | ShellOk => (true, w2)
          end
      end.

(** The outcome of the fallback taken after a failed git command with exit
    code [c] that left the world [w']: the verifier decides. *)
Definition recheckedAfterFailure (h : Host) (patch : PatchConfig) (c : Z) (w' : World)
    (result : bool * World) : Prop :=
  (checkPatchApplied h (fs w') patch = true → result = (true, w')) ∧
  (checkPatchApplied h (fs w') patch = false →
     result = (false, print Stderr [MsgFailedToApply (id patch); MsgFailedWithExitCode c] w')).

(** ** Batch driver *)

Record Options := {
  opt_category : option string;
  opt_all : bool;
}.

(** JavaScript truthiness of [options.category]. *)
Definition truthy (o : option string) : bool :=
  match o with
  | Some s => negb (String.eqb s "")
  | None => false
  end.

(** The [filter] callback of [applyPatches]. *)
Definition selected (options : Options) (p : PatchConfig) : bool :=
  if truthy (opt_category options) && negb (bool_decide (Some (category p) = opt_category options))
  then false
  else if negb (opt_all options) && negb (enabled p) then false
  else true.

Definition patchesToApply (config : Config) (options : Options) : list PatchConfig :=
  List.filter (selected options) (patches config).

(** The apply order that [applyPatches] builds, or how building it ended. *)
Definition applyOrderOf (config : Config) (options : Options) : outcome (list string) :=
  computeApplyOrder (patches config) (id <$> patchesToApply config options).

(** [for (const patchId of applyOrder)]: look the patch up, apply it, push
    the result. *)
Fixpoint applyInOrder (h : Host) (ps : list PatchConfig) (applyOrder : list string)
    (results : list bool) (w : World) : list bool * World :=
  match applyOrder with
  | [] => (results, w)
  | patchId :: rest =>
      match findPatch ps patchId with
      | None => applyInOrder h ps rest results w
      | Some patch =>
          let '(result, w') := applyPatch h patch w in
          applyInOrder h ps rest (results ++ [result]) w'
      end
  end.

Definition applyPatches (h : Host) (config : Config) (options : Options) (w : World)
    : ProcessResult * World :=
  if (length (patchesToApply config options) =? 0)%nat then
    (Returned, print Stdout [MsgNoPatchesToApply] w)
  else
    match applyOrderOf config options with
    | OutOfFuel => (Unfinished, w)
    | Exit e => (Exited 1, print Stderr [MsgConfigError e] w)
    | Done applyOrder =>
        let '(results, w') := applyInOrder h (patches config) applyOrder [] w in
        let failed := length (List.filter negb results) in
        if (0 <? failed)%nat then (Exited 1, print Stderr [MsgPatchesFailed failed] w')
        else (Returned, w')
    end.


(** ** Enabling and disabling *)

Definition withEnabled (b : bool) (p : PatchConfig) : PatchConfig :=
  {| id := id p; name := name p; file := file p; description := description p;
     category := category p; enabled := b; dependencies := dependencies p;
     checkApplied := checkApplied p |}.

(** [patch.enabled = b] on the record that [find] returned: the first one
    with the id changes inside [config.patches]. *)
Fixpoint setEnabled (ps : list PatchConfig) (patchId : string) (b : bool)
    : list PatchConfig :=
  match ps with
  | [] => []
  | p :: rest =>
      if bool_decide (id p = patchId) then withEnabled b p :: rest
      else p :: setEnabled rest patchId b
  end.

Definition updateEnabled (config : Config) (patchId : string) (b : bool) : Config :=
  {| patches := setEnabled (patches config) patchId b; categories := categories config |}.


(** [config.patches.filter((p) => p.enabled && p.dependencies.includes(patchId))] *)
Definition dependents (config : Config) (patchId : string) : list PatchConfig :=
  List.filter (fun p => enabled p && bool_decide (patchId ∈ dependencies p)) (patches config).

Definition disablePatch (config : Config) (patchId : string) (w : World)
    : ProcessResult * World :=
  match findPatch (patches config) patchId with
  | None => (Exited 1, print Stderr [MsgPatchNotFound patchId] w)
  | Some patch =>
      if negb (enabled patch) then (Returned, print Stdout [MsgAlreadyDisabled patchId] w)
      else
        let deps := dependents config patchId in
        if (0 <? length deps)%nat then
          (Exited 1,
           print Stderr ([MsgCannotDisable patchId; MsgDependentsHeader]
                         ++ ((fun p => MsgDependent (id p)) <$> deps)) w)
        else
          (Returned,
           print Stdout [MsgDisabled patchId]
                 (saveConfig (updateEnabled config patchId false) w))
  end.

(** ** Command line *)

(** The [options] object that [main] fills from [process.argv]. *)
Record CliOptions := {
  cli_patch : option string;
  cli_category : option string;
  cli_all : bool;
}.

Definition noCliOptions : CliOptions :=
  {| cli_patch := None; cli_category := None; cli_all := false |}.

(** The option loop of [main], started at [args[1]]: [--patch] and
    [--category] take the next word, whatever it is, when there is one;
    [--all] takes none; any other word is skipped. *)
Fixpoint parseOptions (args : list string) (options : CliOptions) : CliOptions :=
  match args with
  | [] => options
  | a :: rest =>
      match rest with
      | v :: rest' =>
          if String.eqb a "--patch" then
            parseOptions rest' {| cli_patch := Some v; cli_category := cli_category options;
                                  cli_all := cli_all options |}
          else if String.eqb a "--category" then
            parseOptions rest' {| cli_patch := cli_patch options; cli_category := Some v;
                                  cli_all := cli_all options |}
          else if String.eqb a "--all" then
            parseOptions rest {| cli_patch := cli_patch options;
                                 cli_category := cli_category options; cli_all := true |}
          else parseOptions rest options
      | [] =>
          if String.eqb a "--all" then
            {| cli_patch := cli_patch options; cli_category := cli_category options;
               cli_all := true |}
          else options
      end
  end.

(** [args[0] || "apply"] *)
Definition commandOf (args : list string) : string :=
  match args with
  | [] => "apply"
  | c :: _ => if String.eqb c "" then "apply" else c
  end.

(** What [main] reads from [process.argv.slice(2)]. *)
Definition parseArgs (args : list string) : string * CliOptions :=
  (commandOf args, parseOptions (tail args) noCliOptions).

(** A command line that spells out the given options, used to state that
    parsing reads back what was written. *)
Definition renderOptions (o : CliOptions) : list string :=
  match cli_patch o with Some p => ["--patch"; p] | None => [] end ++
  match cli_category o with Some c => ["--category"; c] | None => [] end ++
  (if cli_all o then ["--all"] else []).

(** Options given later on the command line win over earlier ones. *)
Definition laterWins (o1 o2 : CliOptions) : CliOptions :=
  {| cli_patch := match cli_patch o2 with Some p => Some p | None => cli_patch o1 end;
     cli_category := match cli_category o2 with Some c => Some c | None => cli_category o1 end;
     cli_all := cli_all o1 || cli_all o2 |}.

Definition isFlag (a : string) : bool :=
  String.eqb a "--patch" || String.eqb a "--category" || String.eqb a "--all".

(** ** Reports: [listPatches] and [showStatus] *)

(** [categories.get(patch.category).push(patch)], creating the entry at the
    end of the [Map] when the category is new. *)
Fixpoint pushToGroup (groups : list (string * list PatchConfig)) (p : PatchConfig)
    : list (string * list PatchConfig) :=
  match groups with
  | [] => [(category p, [p])]
  | (c, l) :: rest =>
      if bool_decide (c = category p) then (c, l ++ [p]) :: rest
      else (c, l) :: pushToGroup rest p
  end.

(** The [continue] test of the grouping loops. *)
Definition shown (filter : option string) (p : PatchConfig) : bool :=
  negb (truthy filter && negb (bool_decide (Some (category p) = filter))).

(** The grouping loop shared by [showStatus] and [listPatches]: a [Map]
    from category to patches, in insertion order. *)
Definition groupByCategory (config : Config) (filter : option string)
    : list (string * list PatchConfig) :=
  fold_left (fun groups p => if shown filter p then pushToGroup groups p else groups)
            (patches config) [].

Inductive ReportLine :=
  | LineListTitle
  | LineStatusTitle
  | LineRule
  | LineCategoryName (name : string)
  | LineCategoryDescription (description : string)
  | LineThinRule
  | LineListPatch (enabled : bool) (patchId : string)
  | LineListDescription (description : string)
  | LineStatusPatch (name patchId : string)
  | LineStatus (enabled applied : bool)
  | LineStatusDescription (description : string)
  | LineDependencies (deps : list string).

(** What a report printed, and whether it reached its end: reading [name]
    of a category that [config.categories] does not have throws. *)
Record Report := {
  printed : list ReportLine;
  completed : bool;
}.

Definition listPatchLines (p : PatchConfig) : list ReportLine :=
  [LineListPatch (enabled p) (id p); LineListDescription (description p)].

Fixpoint listGroups (config : Config) (groups : list (string * list PatchConfig))
    (out : list ReportLine) : Report :=
  match groups with
  | [] => {| printed := out ++ [LineRule]; completed := true |}
  | (categoryId, ps) :: rest =>
      match categories config !! categoryId with
      | None => {| printed := out; completed := false |}
      | Some cat =>
          listGroups config rest
            (out ++ [LineCategoryName (cat_name cat);
                     LineCategoryDescription (cat_description cat); LineThinRule]
                 ++ concat (listPatchLines <$> ps))
      end
  end.

Definition listPatches (config : Config) (filter : option string) : Report :=
  listGroups config (groupByCategory config filter) [LineListTitle; LineRule].




(** The ids a list report names, in the order printed. *)
Definition listedIds (lines : list ReportLine) : list string :=
  omap (fun l => match l with LineListPatch _ i => Some i | _ => None end) lines.



(** The patches a report shows, category by category. *)
Definition shownGrouped (config : Config) (filter : option string) : list PatchConfig :=
  concat (snd <$> groupByCategory config filter).

(** The state of the grouping [Map] after the patches [processed] went
    in: one entry per category met, holding the patches of that category in
    the order met. *)
Definition grouped (groups : list (string * list PatchConfig))
    (processed : list PatchConfig) : Prop :=
  NoDup (fst <$> groups) ∧
  (∀ c l, (c, l) ∈ groups →
     l = List.filter (fun p => bool_decide (category p = c)) processed ∧ l ≠ []) ∧
  (∀ p, p ∈ processed → category p ∈ fst <$> groups).

(** The invariant that refusing to disable a needed patch protects: what
    an enabled patch depends on is enabled. *)
Definition enabledClosed (ps : list PatchConfig) : Prop :=
  ∀ q d p, q ∈ ps → enabled q = true → d ∈ dependencies q →
           findPatch ps d = Some p → enabled p = true.

(** ** The single-patch tool [tools/apply-agents-patch.ts] *)

(** What this tool needs besides the [grep] matcher and the two [git apply]
    commands of a [Host] (its directories and [join] are not used here):
    the artifact chosen at start-up, the reverse application, the JSON text
    of a marker with a given description (it also holds the date and the
    artifact path), and the texts of the errors thrown. *)
Record AgentsHost := {
  agents : Host;
  PATCH_FILE : string;
  gitApplyReverse : FileSystem -> string -> Z * FileSystem;
  markerJson : string -> string;
  shellMessage : Z -> string;
  writeMessage : string;
}.

Definition MARKER_FILE : string := ".agents-patch-applied".

Inductive AgentsMessage :=
  | AgApplying
  | AgAlreadyPresent
  | AgRulesPartFound
  | AgRulesSurvive
  | AgMarkerCreated
  | AgApplied
  | AgRulesPartAdded
  | AgRulesNowSurvive
  | AgInjectionDisabled
  | AgFailed
  | AgErrorMessage (text : string)
  | AgFailedButPresent
  | AgMarkerCreatedAfter
  | AgReverting
  | AgReverted
  | AgRevertFailed.

Inductive AgentsCommand :=
  | AgGitApplyCheck
  | AgGitApply
  | AgGitApplyReverse
  | AgRemoveMarker.

Record AgentsWorld := {
  afs : FileSystem;
  alog : list (Stream * AgentsMessage);
  acalls : list AgentsCommand;
}.

Definition say (s : Stream) (msgs : list AgentsMessage) (w : AgentsWorld) : AgentsWorld :=
  {| afs := afs w; alog := alog w ++ ((fun m => (s, m)) <$> msgs); acalls := acalls w |}.

Definition called (c : AgentsCommand) (w : AgentsWorld) : AgentsWorld :=
  {| afs := afs w; alog := alog w; acalls := acalls w ++ [c] |}.

Definition setAfs (fs' : FileSystem) (w : AgentsWorld) : AgentsWorld :=
  {| afs := fs'; alog := alog w; acalls := acalls w |}.

(** How a function of this tool ends: with its boolean, or by throwing out
    of its own [catch] (the caller [main] then exits with code 1). *)
Inductive AgentsResult :=
  | AgReturn (ok : bool)
  | AgThrow.

(** [isPatchApplied]: three [grep -q] in a row, any failure caught. *)
Definition isPatchApplied (a : AgentsHost) (fs : FileSystem) : bool :=
  match run (grepQuiet (agents a) fs "export type RulesPart"
               "packages/opencode/src/session/message-v2.ts") with
  | ShellError _ => false
  | ShellOk =>
      match run (grepQuiet (agents a) fs "pinnedRulesMessages"
                   "packages/opencode/src/session/message-v2.ts") with
      | ShellError _ => false
      | ShellOk =>
          match run (grepQuiet (agents a) fs "SystemPrompt.custom()))"
                       "packages/opencode/src/session/prompt.ts") with
          | ShellError _ => false
          | ShellOk => true
          end
      end
  end.

(** [Bun.write(MARKER_FILE, JSON.stringify(...))]: replaces the file; it
    throws when the path is a directory. *)
Definition writeMarker (a : AgentsHost) (description : string) (fs : FileSystem)
    : option FileSystem :=
  match fs !! MARKER_FILE with
  | Some Directory => None
  | _ => Some (<[MARKER_FILE := RegularFile (markerJson a description)]> fs)
  end.

Definition descAlready : string :=
  "AGENTS.md enforcement patch - detected as already applied in code".
Definition descApplied : string :=
  "AGENTS.md enforcement patch - moves rules to conversation context".
Definition descDespite : string :=
  "AGENTS.md enforcement patch - detected as already applied despite git error".

(** The [catch] block of the tool's [applyPatch]. *)
Definition agentsCatch (a : AgentsHost) (message : string) (w : AgentsWorld)
    : AgentsResult * AgentsWorld :=
  let w1 := say Stderr [AgFailed; AgErrorMessage message] w in
  if isPatchApplied a (afs w1) then
    match writeMarker a descDespite (afs w1) with
    | None => (AgThrow, w1)
    | Some fs' => (AgReturn true, say Stdout [AgFailedButPresent; AgMarkerCreatedAfter]
                                      (setAfs fs' w1))
    end
  else (AgReturn false, w1).

(** The tool's [applyPatch]. *)
Definition agentsApplyPatch (a : AgentsHost) (w : AgentsWorld) : AgentsResult * AgentsWorld :=
  let w0 := say Stdout [AgApplying] w in
  if isPatchApplied a (afs w0) then
    match writeMarker a descAlready (afs w0) with
    | None => (AgThrow, w0)
    | Some fs' =>
        (AgReturn true,
         say Stdout [AgAlreadyPresent; AgRulesPartFound; AgRulesSurvive; AgMarkerCreated]
             (setAfs fs' w0))
    end
  else
    let w1 := called AgGitApplyCheck w0 in
    match run (gitApplyCheck (agents a) (afs w1) (PATCH_FILE a)) with
    | ShellError c => agentsCatch a (shellMessage a c) w1
    | ShellOk =>
        let '(status, fs') := gitApply (agents a) (afs w1) (PATCH_FILE a) in
        let w2 := setAfs fs' (called AgGitApply w1) in
        match run status with
        | ShellError c => agentsCatch a (shellMessage a c) w2
        | ShellOk =>
            match writeMarker a descApplied (afs w2) with
            | None => agentsCatch a (writeMessage a) w2
            | Some fs'' =>
                (AgReturn true,
                 say Stdout [AgApplied; AgRulesPartAdded; AgRulesNowSurvive;
                             AgInjectionDisabled]
                     (setAfs fs'' w2))
            end
        end
    end.

(** Exit status and effect of [rm MARKER_FILE] on an existing path. *)
Definition removeMarker (fs : FileSystem) : Z * FileSystem :=
  match fs !! MARKER_FILE with
  | Some Directory => (1%Z, fs)
  | _ => (0%Z, delete MARKER_FILE fs)
  end.

(** The tool's [revertPatch]. *)
Definition agentsRevertPatch (a : AgentsHost) (w : AgentsWorld) : bool * AgentsWorld :=
  let w0 := called AgGitApplyReverse (say Stdout [AgReverting] w) in
  let '(status, fs') := gitApplyReverse a (afs w0) (PATCH_FILE a) in
  let w1 := setAfs fs' w0 in
  match run status with
  | ShellError c => (false, say Stderr [AgRevertFailed; AgErrorMessage (shellMessage a c)] w1)
  | ShellOk =>
      if existsSync (afs w1) MARKER_FILE then
        let '(rmStatus, fs'') := removeMarker (afs w1) in
        let w2 := setAfs fs'' (called AgRemoveMarker w1) in
        match run rmStatus with
        | ShellError c =>
            (false, say Stderr [AgRevertFailed; AgErrorMessage (shellMessage a c)] w2)
        | ShellOk => (true, say Stdout [AgReverted] w2)
        end
      else (true, say Stdout [AgReverted] w1)
  end.

(** A toy host for this tool: applying rewrites the two files the tool
    greps, reversing restores them. *)
Definition demoAgents : AgentsHost :=
  {| agents :=
       {| OPENCODE_DIR := "."; PATCHES_DIR := "patches";
          join := fun x y => x +:+ "/" +:+ y;
          grepMatches := fun _ content => String.eqb content "patched";
          gitApplyCheck := fun fs _ =>
            match fs !! "packages/opencode/src/session/prompt.ts" with
            | Some (RegularFile "pristine") => 0%Z
            | _ => 1%Z
            end;
          gitApply := fun fs _ =>
            (0%Z, <["packages/opencode/src/session/prompt.ts" := RegularFile "patched"]>
                    (<["packages/opencode/src/session/message-v2.ts" := RegularFile "patched"]>
                       fs)) |};
     PATCH_FILE := "patches/agents-md-enforcement.patch";
     gitApplyReverse := fun fs _ =>
       (0%Z, <["packages/opencode/src/session/prompt.ts" := RegularFile "pristine"]>
               (<["packages/opencode/src/session/message-v2.ts" := RegularFile "pristine"]>
                  fs));
     markerJson := fun d => d;
     shellMessage := fun _ => "Failed with exit code";
     writeMessage := "EISDIR" |}.

Definition pristineAgentsWorld : AgentsWorld :=
  {| afs := list_to_map
              [("packages/opencode/src/session/prompt.ts", RegularFile "pristine");
               ("packages/opencode/src/session/message-v2.ts", RegularFile "pristine")];
     alog := []; acalls := [] |}.

(** ** Sample data *)

Definition mkPatch (i : string) (en : bool) (deps : list string) : PatchConfig :=
  {| id := i; name := i; file := i +:+ ".patch"; description := "";
     category := "conversation"; enabled := en; dependencies := deps;
     checkApplied := {| type := "grep"; files := [] |} |}.

Definition mkConfig (ps : list PatchConfig) : Config :=
  {| patches := ps; categories := ∅ |}.

Definition noOptions : Options := {| opt_category := None; opt_all := false |}.

(** The registry of the specification's scenarios. *)
Definition abcConfig : Config :=
  mkConfig [mkPatch "A" true []; mkPatch "B" true ["A"]; mkPatch "C" false ["A"]].

(** The same registry with its category declared. *)
Definition abcCatalog : Config :=
  {| patches := patches abcConfig;
     categories := {["conversation" := {| cat_name := "Conversation & Rules";
                                          cat_description := "Rules preservation" |}]} |}.

(** A cycle next to a reference to an id that is not declared. *)
Definition cycleConfig : Config :=
  mkConfig [mkPatch "A" true ["Z"; "B"]; mkPatch "B" true ["A"]].

(** A plain two-patch cycle. *)
Definition loopConfig : Config :=
  mkConfig [mkPatch "A" true ["B"]; mkPatch "B" true ["A"]].

(** A disabled patch that refers to an id that is not declared. *)
Definition danglingConfig : Config :=
  mkConfig [mkPatch "A" true []; mkPatch "C" false ["Z"]].

(** Plain substring search, standing in for [grep] on fixed strings. *)
Fixpoint contains (pattern content : string) : bool :=
  String.prefix pattern content ||
  match content with
  | EmptyString => false
  | String _ rest => contains pattern rest
  end.

(** A toy host: every patch artifact rewrites [/oc/app.ts]; its hunks fit
    only the pristine file, and applying installs the artifact's text. *)
Definition demoHost : Host :=
  {| OPENCODE_DIR := "/oc";
     PATCHES_DIR := "/patches";
     join := fun a b => a +:+ "/" +:+ b;
     grepMatches := contains;
     gitApplyCheck := fun fs patchFile =>
       match fs !! "/oc/app.ts", fs !! patchFile with
       | Some (RegularFile "pristine"), Some (RegularFile _) => 0%Z
       | _, _ => 1%Z
       end;
     gitApply := fun fs patchFile =>
       match fs !! "/oc/app.ts", fs !! patchFile with
       | Some (RegularFile "pristine"), Some (RegularFile text) =>
           (0%Z, <["/oc/app.ts" := RegularFile text]> fs)
       | _, _ => (1%Z, fs)
       end |}.

Definition mkWorld (files : list (string * FileEntry)) : World :=
  {| fs := list_to_map files; console := []; gitCalls := []; saved := [] |}.

Definition featurePatch (i pattern : string) : PatchConfig :=
  {| id := i; name := i; file := i +:+ ".patch"; description := "";
     category := "conversation"; enabled := true; dependencies := [];
     checkApplied := {| type := "grep";
                        files := [{| path := "app.ts"; patterns := [pattern] |}] |} |}.

(** An artifact that still applies cleanly but no longer produces the text
    its verification patterns look for. *)
Definition stalePatch : PatchConfig := featurePatch "stale" "new feature".

Definition staleWorld : World :=
  mkWorld [("/oc", Directory); ("/oc/app.ts", RegularFile "pristine");
           ("/patches/stale.patch", RegularFile "old feature")].

(** An artifact whose result carries the text that is looked for. *)
Definition goodPatch : PatchConfig := featurePatch "good" "new feature".

Definition goodWorld : World :=
  mkWorld [("/oc", Directory); ("/oc/app.ts", RegularFile "pristine");
           ("/patches/good.patch", RegularFile "has the new feature")].

(** The tree was edited by hand: the hunks no longer fit and the text that
    is looked for is absent. *)
Definition editedWorld : World :=
  mkWorld [("/oc", Directory); ("/oc/app.ts", RegularFile "edited by hand");
           ("/patches/good.patch", RegularFile "has the new feature")].





(** ** Facts about lookups and the graph *)

Section GraphFacts.
Variable ps : list PatchConfig.

Lemma findPatch_Some x p : findPatch ps x = Some p → id p = x ∧ p ∈ ps.
Proof.
  unfold findPatch. intros H. apply find_some in H as [Hin Hb].
  apply bool_decide_eq_true in Hb. split; [done | by apply list_elem_of_In].
Qed.

Lemma findPatch_None x : findPatch ps x = None ↔ x ∉ declared ps.
Proof.
  unfold findPatch, declared. rewrite elem_of_list_to_set, list_elem_of_fmap. split.
  - intros H [p [-> Hp]]. apply list_elem_of_In in Hp.
    pose proof (find_none _ _ H _ Hp) as Hb. simpl in Hb.
    by apply bool_decide_eq_false in Hb.
  - intros H. destruct (find _ ps) as [p|] eqn:E; [|done].
    apply find_some in E as [Hin Hb]. apply bool_decide_eq_true in Hb.
    exfalso. apply H. exists p. split; [done | by apply list_elem_of_In].
Qed.

(** With unique ids the lookup finds the only record of that id, so [x]
    depends on [y] exactly when some record with id [x] lists [y]. *)
Lemma findPatch_unique p :
  NoDup (id <$> ps) → p ∈ ps → findPatch ps (id p) = Some p.
Proof.
  unfold findPatch. induction ps as [|q l IH]; intros Hnd Hp.
  - by apply elem_of_nil in Hp.
  - rewrite fmap_cons in Hnd. apply NoDup_cons in Hnd as [Hq Hnd]. simpl.
    apply elem_of_cons in Hp as [->|Hp].
    + by rewrite bool_decide_eq_true_2.
    + rewrite bool_decide_eq_false_2; [by apply IH|].
      intros Heq. apply Hq. rewrite Heq. apply list_elem_of_fmap. by exists p.
Qed.

Lemma dependsOn_unique x y :
  NoDup (id <$> ps) →
  dependsOn ps x y ↔ ∃ p, p ∈ ps ∧ id p = x ∧ y ∈ dependencies p.
Proof.
  intros Hnd. split.
  - intros (p & Hf & Hy). apply findPatch_Some in Hf as [? ?]. by exists p.
  - intros (p & Hp & <- & Hy). exists p. split; [by apply findPatch_unique|done].
Qed.

Lemma findPatch_declared x p : findPatch ps x = Some p → x ∈ declared ps.
Proof.
  intros H. destruct (decide (x ∈ declared ps)) as [|Hn]; [done|].
  apply findPatch_None in Hn. congruence.
Qed.

Lemma size_ids (l : list PatchConfig) :
  size (list_to_set (id <$> l) : gset string) ≤ length l.
Proof.
  induction l as [|p l IH].
  - change (size (∅ : gset string) ≤ 0). by rewrite size_empty.
  - rewrite fmap_cons, list_to_set_cons, length_cons.
    etrans; [apply Nat.eq_le_incl, size_union_alt|]. rewrite size_singleton.
    assert (size (list_to_set (id <$> l) ∖ {[id p]} : gset string)
            ≤ size (list_to_set (id <$> l) : gset string)).
    { apply subseteq_size. set_solver. }
    lia.
Qed.

Lemma declared_size : size (declared ps) ≤ length ps.
Proof. apply size_ids. Qed.

Lemma before_app_l o1 o2 z y : before o1 z y → before (o1 ++ o2) z y.
Proof.
  intros (i & j & Hi & Hj & Hlt). exists i, j.
  split; [by apply lookup_app_l_Some|]. split; [by apply lookup_app_l_Some | done].
Qed.

Lemma before_app_r o1 o2 z y : before o2 z y → before (o1 ++ o2) z y.
Proof.
  intros (i & j & Hi & Hj & Hlt). exists (length o1 + i), (length o1 + j).
  rewrite !lookup_app_r by lia.
  replace (length o1 + i - length o1) with i by lia.
  replace (length o1 + j - length o1) with j by lia.
  repeat split; [done | done | lia].
Qed.

Lemma before_app_lr o1 o2 z y : z ∈ o1 → y ∈ o2 → before (o1 ++ o2) z y.
Proof.
  intros [i Hi]%list_elem_of_lookup [j Hj]%list_elem_of_lookup.
  exists i, (length o1 + j). split; [by apply lookup_app_l_Some|].
  split.
  - rewrite lookup_app_r by lia. by replace (length o1 + j - length o1) with j by lia.
  - apply lookup_lt_Some in Hi. lia.
Qed.

Lemma before_trans order a b c :
  NoDup order → before order a b → before order b c → before order a c.
Proof.
  intros Hnd (i & j & Hi & Hj & Hij) (j' & k & Hj' & Hk & Hjk).
  assert (j = j') as <- by (eapply NoDup_lookup; eauto).
  exists i, k. repeat split; [done | done | lia].
Qed.

Lemma before_irrefl order a : NoDup order → ¬ before order a a.
Proof.
  intros Hnd (i & j & Hi & Hj & Hij).
  assert (i = j) by (eapply NoDup_lookup; eauto). lia.
Qed.

Lemma before_elem order z y : before order z y → z ∈ order ∧ y ∈ order.
Proof.
  intros (i & j & Hi & Hj & _). split; apply list_elem_of_lookup; eauto.
Qed.

Lemma emitted_nil R : emitted ps R [] R.
Proof.
  unfold emitted. repeat split.
  - set_solver.
  - constructor.
  - intros y Hy. by apply elem_of_nil in Hy.
  - intros y z Hy. by apply elem_of_nil in Hy.
Qed.

Lemma emitted_app R o1 R1 o2 R2 :
  emitted ps R o1 R1 → emitted ps R1 o2 R2 → emitted ps R (o1 ++ o2) R2.
Proof.
  intros (E1 & N1 & F1 & O1) (E2 & N2 & F2 & O2).
  assert (Hsub : ∀ y, y ∈ o1 → y ∈ R1).
  { intros y Hy. rewrite E1. set_solver. }
  unfold emitted. repeat split.
  - rewrite E2, E1, list_to_set_app_L. set_solver.
  - apply NoDup_app. repeat split; [done | | done].
    intros y Hy1 Hy2. apply (F2 y Hy2). by apply Hsub.
  - intros y [Hy|Hy]%elem_of_app; [by apply F1|].
    intros HR. apply (F2 y Hy). rewrite E1. set_solver.
  - intros y z [Hy|Hy]%elem_of_app Hd.
    + destruct (O1 y z Hy Hd) as [?|Hb]; [by left|]. right. by apply before_app_l.
    + destruct (O2 y z Hy Hd) as [Hz|Hb].
      * rewrite E1 in Hz. apply elem_of_union in Hz as [Hz|Hz]; [by left|].
        right. apply before_app_lr; [|done]. by apply elem_of_list_to_set in Hz.
      * right. by apply before_app_r.
Qed.

Lemma emitted_single R x :
  x ∉ R → (∀ z, dependsOn ps x z → z ∈ R) → emitted ps R [x] ({[x]} ∪ R).
Proof.
  intros Hx Hd. unfold emitted. repeat split.
  - simpl. set_solver.
  - apply NoDup_singleton.
  - intros y Hy. apply list_elem_of_singleton in Hy as ->. done.
  - intros y z Hy Hdep. apply list_elem_of_singleton in Hy as ->. left. by apply Hd.
Qed.
End GraphFacts.

(** ** The resolver, call by call *)

Section ResolverFacts.
Variable ps : list PatchConfig.

Lemma dependsOn_find x p z :
  findPatch ps x = Some p → dependsOn ps x z → z ∈ dependencies p.
Proof. intros Hf (p' & Hf' & Hz). congruence. Qed.

Lemma forDeps_Done rec deps :
  (∀ d m o m', rec d m = Done (o, m') → resolvePost ps d m o m') →
  ∀ acc m order m', forDeps rec deps acc m = Done (order, m') →
  ∃ new, order = acc ++ new ∧ visiting m' = visiting m ∧
         emitted ps (resolved m) new (resolved m') ∧
         (∀ d, d ∈ deps → d ∈ resolved m') ∧
         (∀ y, y ∈ new → y ∉ visiting m) ∧
         (∀ y, y ∈ new → (∃ d, d ∈ deps ∧ reachable ps d y) ∧ y ∈ declared ps).
Proof.
  intros Hrec. induction deps as [|d rest IH]; intros acc m order m' H; simpl in H.
  - injection H as <- <-. exists []. rewrite app_nil_r.
    split; [done|]. split; [done|]. split; [apply emitted_nil|].
    split; [|split]; intros ? Hin; by apply elem_of_nil in Hin.
  - destruct (rec d m) as [[sub m1]| |] eqn:E; [|done|done].
    apply Hrec in E as (V1 & E1 & X1 & F1 & Re1).
    apply IH in H as (new & -> & V2 & E2 & D2 & F2 & Re2).
    exists (sub ++ new). rewrite app_assoc.
    split; [done|]. split; [congruence|]. split; [eapply emitted_app; eauto|].
    split; [|split].
    + intros d' [->|Hd']%elem_of_cons; [|by apply D2].
      destruct E2 as [-> _]. set_solver.
    + intros y [Hy|Hy]%elem_of_app; [by apply F1|]. rewrite <- V1. by apply F2.
    + intros y [Hy|Hy]%elem_of_app.
      * destruct (Re1 y Hy) as [? ?]. split; [|done]. exists d. split; [left|done].
      * destruct (Re2 y Hy) as [(d' & ? & ?) ?]. split; [|done].
        exists d'. split; [by right|done].
Qed.

Lemma resolveDependencies_Done fuel :
  ∀ x m order m',
    resolveDependencies fuel ps x m = Done (order, m') → resolvePost ps x m order m'.
Proof.
  induction fuel as [|fuel IH]; intros x m order m' H; [done|]. simpl in H.
  case_bool_decide as Hres.
  { injection H as <- <-. split; [done|]. split; [apply emitted_nil|].
    split; [done|]. split; intros ? Hin; by apply elem_of_nil in Hin. }
  case_bool_decide as Hvis; [done|].
  destruct (findPatch ps x) as [p|] eqn:Ef; [|done].
  destruct (forDeps _ _ _ _) as [[o m2]| |] eqn:El; [|done|done].
  injection H as <- <-.
  apply (forDeps_Done _ _ IH) in El as (new & -> & V & E & D & F & Re).
  simpl in *.
  assert (Hxnew : x ∉ new) by (intros Hx; apply (F x Hx); set_solver).
  split; [rewrite V; set_solver|].
  split.
  { eapply emitted_app; [exact E|]. apply emitted_single.
    - destruct E as [-> _]. rewrite elem_of_union, elem_of_list_to_set. tauto.
    - intros z Hz. apply D. by eapply dependsOn_find. }
  split; [set_solver|]. split.
  - intros y [Hy|Hy]%elem_of_app.
    + specialize (F y Hy). set_solver.
    + apply list_elem_of_singleton in Hy as ->. done.
  - intros y [Hy|Hy]%elem_of_app.
    + destruct (Re y Hy) as [(d & Hd & Hr) Hdecl]. split; [|done].
      eapply rtc_l; [|exact Hr]. by exists p.
    + apply list_elem_of_singleton in Hy as ->.
      split; [apply rtc_refl | by eapply findPatch_declared].
Qed.

(** A loop that does not return stops at the first call that does not. *)
Lemma forDeps_stop rec deps :
  (∀ d m o m', rec d m = Done (o, m') → visiting m' = visiting m) →
  ∀ acc m r, forDeps rec deps acc m = r → (∀ a, r ≠ Done a) →
  ∃ d mi, d ∈ deps ∧ visiting mi = visiting m ∧ rec d mi = r.
Proof.
  intros Hrec. induction deps as [|d rest IH]; intros acc m r H Hr; simpl in H.
  - by destruct (Hr (acc, m)).
  - destruct (rec d m) as [[sub m1]| |] eqn:E.
    + apply Hrec in E as V1. destruct (IH _ _ _ H Hr) as (d' & mi & Hd & Hv & Hc).
      exists d', mi. split; [by right|]. split; [congruence|done].
    + exists d, m. split; [left|]. split; [done|]. congruence.
    + exists d, m. split; [left|]. split; [done|]. congruence.
Qed.

Lemma resolveDependencies_visiting fuel x m order m' :
  resolveDependencies fuel ps x m = Done (order, m') → visiting m' = visiting m.
Proof. intros H. by apply resolveDependencies_Done in H as [? _]. Qed.

Lemma resolveDependencies_Exit fuel :
  ∀ x m e, resolveDependencies fuel ps x m = Exit e →
    match e with
    | PatchNotFound u => reachable ps x u ∧ u ∉ declared ps
    | CircularDependency c => reachable ps x c ∧ (c ∈ visiting m ∨ onCycle ps c)
    end.
Proof.
  induction fuel as [|fuel IH]; intros x m e H; [done|]. simpl in H.
  case_bool_decide as Hres; [done|].
  case_bool_decide as Hvis.
  { injection H as <-. split; [apply rtc_refl | by left]. }
  destruct (findPatch ps x) as [p|] eqn:Ef.
  2:{ injection H as <-. split; [apply rtc_refl | by apply findPatch_None]. }
  destruct (forDeps _ _ _ _) as [[o m2]| |] eqn:El; [done| |done].
  injection H as ->.
  apply forDeps_stop in El as (d & mi & Hd & Hv & Hc);
    [|intros; by eapply resolveDependencies_visiting|done].
  assert (Hxd : dependsOn ps x d) by (by exists p).
  apply IH in Hc. simpl in Hv. destruct e as [c|u].
  - destruct Hc as [Hr Hc]. split; [by eapply rtc_l|].
    rewrite Hv in Hc. destruct Hc as [Hc|Hc]; [|by right].
    apply elem_of_union in Hc as [Hc|Hc]; [|by left].
    apply elem_of_singleton in Hc as ->. right.
    eapply tc_rtc_r; [by apply tc_once|done].
  - destruct Hc as [Hr Hu]. split; [by eapply rtc_l|done].
Qed.

(** The budget needed is one frame more than the number of declared ids
    that are not on the stack yet. *)
Lemma resolveDependencies_fuel fuel :
  ∀ x m, size (declared ps ∖ visiting m) < fuel →
    resolveDependencies fuel ps x m ≠ OutOfFuel.
Proof.
  induction fuel as [|fuel IH]; intros x m Hsz; [lia|]. simpl.
  case_bool_decide as Hres; [done|].
  case_bool_decide as Hvis; [done|].
  destruct (findPatch ps x) as [p|] eqn:Ef; [|done].
  destruct (forDeps _ _ _ _) as [[o m2]| |] eqn:El; [done|done|].
  exfalso.
  apply forDeps_stop in El as (d & mi & Hd & Hv & Hc);
    [|intros; by eapply resolveDependencies_visiting|done].
  revert Hc. apply IH. rewrite Hv. simpl.
  apply findPatch_declared in Ef.
  assert (declared ps ∖ ({[x]} ∪ visiting m) ⊂ declared ps ∖ visiting m) as Hsub.
  { apply strict_spec_alt. split; [set_solver|].
    intros Heq. assert (x ∈ declared ps ∖ visiting m) as Hx by set_solver.
    rewrite <- Heq in Hx. set_solver. }
  apply subset_size in Hsub. lia.
Qed.

Lemma forDeps_mono rec1 rec2 deps :
  (∀ d m r, rec1 d m = r → r ≠ OutOfFuel → rec2 d m = r) →
  ∀ acc m r, forDeps rec1 deps acc m = r → r ≠ OutOfFuel → forDeps rec2 deps acc m = r.
Proof.
  intros Hrec. induction deps as [|d rest IH]; intros acc m r H Hr; simpl in *; [done|].
  destruct (rec1 d m) as [[sub m1]| |] eqn:E.
  - rewrite (Hrec _ _ _ E) by done. by apply IH.
  - rewrite (Hrec _ _ _ E) by done. done.
  - congruence.
Qed.

(** More budget never changes a result that was reached. *)
Lemma resolveDependencies_mono fuel :
  ∀ x m r, resolveDependencies fuel ps x m = r → r ≠ OutOfFuel →
    ∀ k, fuel ≤ k → resolveDependencies k ps x m = r.
Proof.
  induction fuel as [|fuel IH]; intros x m r H Hr k Hk; [simpl in H; congruence|].
  destruct k as [|k]; [lia|]. simpl in *.
  case_bool_decide; [done|]. case_bool_decide; [done|].
  destruct (findPatch ps x) as [p|]; [|done].
  assert (Hrec : ∀ d m' r', resolveDependencies fuel ps d m' = r' → r' ≠ OutOfFuel →
                            resolveDependencies k ps d m' = r').
  { intros d m' r' ? ?. eapply IH; [done|done|lia]. }
  destruct (forDeps (resolveDependencies fuel ps) _ _ _) as [[o m2]| |] eqn:El.
  - by rewrite (forDeps_mono _ _ _ Hrec _ _ _ El).
  - by rewrite (forDeps_mono _ _ _ Hrec _ _ _ El).
  - congruence.
Qed.
End ResolverFacts.

(** ** The resolution loop of [applyPatches] *)

Section ResolveAllFacts.
Variable ps : list PatchConfig.

Lemma pushNew_fresh deps :
  ∀ acc, NoDup deps → (∀ d, d ∈ deps → d ∉ acc) → pushNew acc deps = acc ++ deps.
Proof.
  unfold pushNew. induction deps as [|d rest IH]; intros acc Hnd Hfresh; simpl.
  - by rewrite app_nil_r.
  - apply NoDup_cons in Hnd as [Hd Hnd].
    rewrite bool_decide_eq_false_2 by (apply Hfresh; left).
    rewrite IH; [by rewrite <- app_assoc | done |].
    intros d' Hd' [Hin|Hin]%elem_of_app.
    + apply (Hfresh d'); [by right | done].
    + apply list_elem_of_singleton in Hin as ->. done.
Qed.

Lemma resolveAll_Done fuel requested :
  ∀ R acc order,
    emitted ps ∅ acc R →
    resolveAll fuel ps requested R acc = Done order →
    ∃ R', emitted ps ∅ order R' ∧ R ⊆ R' ∧
          (∀ r, r ∈ requested → r ∈ R') ∧
          (∀ y, y ∈ order → y ∈ acc ∨
                (∃ r, r ∈ requested ∧ reachable ps r y) ∧ y ∈ declared ps).
Proof.
  induction requested as [|r rest IH]; intros R acc order Hacc H; simpl in H.
  - injection H as <-. exists R. split; [done|]. split; [done|].
    split; [intros ? Hin; by apply elem_of_nil in Hin | by left].
  - destruct (resolveDependencies fuel ps r _) as [[deps m']| |] eqn:E; [|done|done].
    apply resolveDependencies_Done in E as (_ & E & Hr & _ & Re). simpl in E.
    assert (Hpush : pushNew acc deps = acc ++ deps).
    { destruct E as (_ & Hnd & Hfresh & _). apply pushNew_fresh; [done|].
      intros d Hd Hin. apply (Hfresh d Hd).
      destruct Hacc as [-> _]. set_solver. }
    rewrite Hpush in H.
    apply IH in H as (R' & E' & Hsub & Hreq & Hre); [|by eapply emitted_app].
    assert (HRsub : R ⊆ resolved m') by (destruct E as [-> _]; set_solver).
    exists R'. split; [done|]. split; [set_solver|]. split.
    + intros r' [->|Hr']%elem_of_cons; [set_solver | by apply Hreq].
    + intros y Hy. destruct (Hre y Hy) as [[Hin|Hin]%elem_of_app|[(r' & Hr' & Hreach) Hd]].
      * by left.
      * right. destruct (Re y Hin) as [? ?]. split; [|done]. exists r. split; [left|done].
      * right. split; [|done]. exists r'. split; [by right|done].
Qed.

(** A resolution loop that does not return an order stopped inside the
    call for one of the requested ids, entered with an empty stack. *)
Lemma resolveAll_stop fuel requested :
  ∀ R acc r, resolveAll fuel ps requested R acc = r → (∀ o, r ≠ Done o) →
    ∃ x R1, x ∈ requested ∧
      (∀ o, r ≠ Done o) ∧
      match resolveDependencies fuel ps x {| resolved := R1; visiting := ∅ |} with
      | Done _ => False
      | Exit e => r = Exit e
      | OutOfFuel => r = OutOfFuel
      end.
Proof.
  induction requested as [|x rest IH]; intros R acc r H Hr; simpl in H.
  - by destruct (Hr acc).
  - destruct (resolveDependencies fuel ps x _) as [[deps m']| |] eqn:E.
    + destruct (IH _ _ _ H Hr) as (x' & R1 & Hx' & ? & ?).
      exists x', R1. split; [by right|done].
    + exists x, R. rewrite E. split; [left|]. split; [done|congruence].
    + exists x, R. rewrite E. split; [left|]. split; [done|congruence].
Qed.

Lemma enoughFuel_spec (m : marks) : size (declared ps ∖ visiting m) < enoughFuel ps.
Proof.
  unfold enoughFuel. pose proof (declared_size ps).
  assert (size (declared ps ∖ visiting m) ≤ size (declared ps)).
  { apply subseteq_size. set_solver. }
  lia.
Qed.

Lemma resolveAll_not_OutOfFuel requested R acc :
  resolveAll (enoughFuel ps) ps requested R acc ≠ OutOfFuel.
Proof.
  intros H. apply resolveAll_stop in H as (x & R1 & _ & _ & Hx); [|done].
  destruct (resolveDependencies _ ps x _) eqn:E; [done|done|].
  revert E. apply resolveDependencies_fuel, enoughFuel_spec.
Qed.

(** A larger budget does not change what the loop yields. *)
Lemma resolveAll_mono fuel requested :
  enoughFuel ps ≤ fuel →
  ∀ R acc, resolveAll fuel ps requested R acc
           = resolveAll (enoughFuel ps) ps requested R acc.
Proof.
  assert (Hnever : ∀ x m, resolveDependencies (enoughFuel ps) ps x m ≠ OutOfFuel).
  { intros x m. apply resolveDependencies_fuel, enoughFuel_spec. }
  revert Hnever. generalize (enoughFuel ps). intros n Hnever Hfuel.
  induction requested as [|x rest IH]; intros R acc; [done|].
  cbn [resolveAll].
  destruct (resolveDependencies n ps x {| resolved := R; visiting := ∅ |})
    as [[deps m']|e|] eqn:E.
  - rewrite (resolveDependencies_mono ps _ _ _ _ E) by done. apply IH.
  - by rewrite (resolveDependencies_mono ps _ _ _ _ E).
  - by destruct (Hnever _ _ E).
Qed.

(** What a returned apply order looks like. *)
Lemma computeApplyOrder_Done requested order :
  computeApplyOrder ps requested = Done order →
  NoDup order ∧
  (∀ y z, y ∈ order → dependsOn ps y z → before order z y) ∧
  (∀ y, y ∈ order ↔ ∃ r, r ∈ requested ∧ reachable ps r y) ∧
  (∀ y, y ∈ order → y ∈ declared ps).
Proof.
  unfold computeApplyOrder. intros H.
  apply resolveAll_Done in H as (R' & (ER & Hnd & _ & Hord) & _ & Hreq & Hre);
    [|apply emitted_nil].
  assert (Hbefore : ∀ y z, y ∈ order → dependsOn ps y z → before order z y).
  { intros y z Hy Hd. destruct (Hord y z Hy Hd) as [Hz|Hb]; [set_solver|done]. }
  assert (Hclosed : ∀ y z, y ∈ order → reachable ps y z → z ∈ order).
  { intros y z Hy Hr. induction Hr as [|a b c Hab _ IH]; [done|].
    apply IH. by destruct (before_elem _ _ _ (Hbefore a b Hy Hab)). }
  split; [done|]. split; [done|]. split.
  - intros y. split.
    + intros Hy. destruct (Hre y Hy) as [Hin|[? _]]; [by apply elem_of_nil in Hin|done].
    + intros (r & Hr & Hreach). apply (Hclosed r); [|done].
      specialize (Hreq r Hr). rewrite ER in Hreq. set_solver.
  - intros y Hy. destruct (Hre y Hy) as [Hin|[_ ?]]; [by apply elem_of_nil in Hin|done].
Qed.

(** In a returned order no id lies on a cycle. *)
Lemma computeApplyOrder_Done_acyclic requested order c :
  computeApplyOrder ps requested = Done order → c ∈ order → ¬ onCycle ps c.
Proof.
  intros H Hc Hcyc. apply computeApplyOrder_Done in H as (Hnd & Hbef & _ & _).
  assert (Htc : ∀ a b, tc (dependsOn ps) a b → a ∈ order → before order b a).
  { intros a b Hab. induction Hab as [a b Hab|a b d Hab _ IH]; intros Ha.
    - by apply Hbef.
    - pose proof (Hbef a b Ha Hab) as Hb.
      eapply before_trans; [done| |exact Hb].
      apply IH. by destruct (before_elem _ _ _ Hb). }
  by apply (before_irrefl order c Hnd), Htc.
Qed.

(** How a resolution loop that exits is classified. *)
Lemma computeApplyOrder_Exit requested e :
  computeApplyOrder ps requested = Exit e → exitJustified ps requested e.
Proof.
  unfold computeApplyOrder. intros H.
  apply resolveAll_stop in H as (x & R1 & Hx & _ & Hc); [|done].
  destruct (resolveDependencies _ ps x _) as [|e'|] eqn:E; [done| |done].
  injection Hc as ->. apply resolveDependencies_Exit in E. destruct e' as [c|u]; simpl.
  - destruct E as [Hr [Hv|Hcyc]]; [set_solver|]. split; [done|by exists x].
  - destruct E as [Hr Hu]. split; [done|by exists x].
Qed.
End ResolveAllFacts.


(** ** Properties of the resolver *)

Lemma onCycle_declared ps c : onCycle ps c → c ∈ declared ps.
Proof.
  unfold onCycle. intros H.
  assert (∃ b, dependsOn ps c b) as (b & p & Hf & _).
  { inversion H; eauto. }
  by eapply findPatch_declared.
Qed.

(** Resolving every declared id is a check of the whole configuration: if
    it returns an order, the graph has no cycle and no dangling reference
    below declared ids. *)
Lemma resolution_certifies ps order :
  computeApplyOrder ps (id <$> ps) = Done order →
  acyclic ps ∧
  ∀ requested, (∀ r, r ∈ requested → r ∈ declared ps) → closedFrom ps requested.
Proof.
  intros H. pose proof (computeApplyOrder_Done _ _ _ H) as (_ & _ & Hiff & Hdecl).
  assert (Hin : ∀ y, y ∈ declared ps → y ∈ order).
  { intros y Hy. apply Hiff. exists y. split; [|apply rtc_refl].
    unfold declared in Hy. by apply elem_of_list_to_set in Hy. }
  split.
  - intros c Hc. eapply computeApplyOrder_Done_acyclic; [exact H| |exact Hc].
    by apply Hin, onCycle_declared.
  - intros requested Hreq r y Hr Hreach. apply Hdecl, Hiff.
    exists r. split; [|done].
    specialize (Hreq r Hr). unfold declared in Hreq. by apply elem_of_list_to_set in Hreq.
Qed.

(** C1. For an acyclic dependency graph and any requested ids, the apply
    order built by the resolution loop of [applyPatches] has no duplicate
    id, puts every dependency of each of its ids at a strictly smaller
    index, and holds exactly the ids reachable from the requested ones in
    the full configuration (enabled or not, whatever their category); and
    such an order is returned whenever the reachable ids are all declared. *)
Theorem apply_order_topological ps requested :
  acyclic ps →
  (closedFrom ps requested → ∃ order, computeApplyOrder ps requested = Done order) ∧
  (∀ order, computeApplyOrder ps requested = Done order →
     NoDup order ∧
     (∀ y z, y ∈ order → dependsOn ps y z → before order z y) ∧
     (∀ y, y ∈ order ↔ ∃ r, r ∈ requested ∧ reachable ps r y)).
Proof.
  intros Hacyc. split.
  - intros Hclosed. destruct (computeApplyOrder ps requested) as [order|e|] eqn:E.
    + by exists order.
    + apply computeApplyOrder_Exit in E. destruct e as [c|u]; simpl in E.
      * destruct E as [Hc _]. by destruct (Hacyc c).
      * destruct E as [Hu (r & Hr & Hreach)]. destruct Hu. by apply (Hclosed r).
    + by apply resolveAll_not_OutOfFuel in E.
  - intros order E. apply computeApplyOrder_Done in E as (? & ? & ? & _). done.
Qed.

Lemma apply_order_topological_witness :
  acyclic (patches abcConfig) ∧
  closedFrom (patches abcConfig) ["A"; "B"] ∧
  computeApplyOrder (patches abcConfig) ["A"; "B"] = Done ["A"; "B"] ∧
  ((closedFrom (patches abcConfig) ["A"; "B"] →
    ∃ order, computeApplyOrder (patches abcConfig) ["A"; "B"] = Done order) ∧
   (∀ order, computeApplyOrder (patches abcConfig) ["A"; "B"] = Done order →
      NoDup order ∧
      (∀ y z, y ∈ order → dependsOn (patches abcConfig) y z → before order z y) ∧
      (∀ y, y ∈ order ↔ ∃ r, r ∈ ["A"; "B"] ∧ reachable (patches abcConfig) r y))).
Proof.
  assert (Hcert : computeApplyOrder (patches abcConfig) (id <$> patches abcConfig)
                  = Done ["A"; "B"; "C"]) by (vm_compute; reflexivity).
  apply resolution_certifies in Hcert as [Hacyc Hclosed].
  split; [exact Hacyc|]. split.
  - apply Hclosed. intros r Hr. unfold declared. apply elem_of_list_to_set.
    simpl. set_solver.
  - split; [vm_compute; reflexivity|].
    apply (apply_order_topological (patches abcConfig) ["A"; "B"]). exact Hacyc.
Defined.

(** C10. [resolveDependencies] terminates for every configuration, id and
    state of the two sets. A call returns at once (id resolved), exits (id
    on the stack, or not declared), or recurses after putting one more
    declared id on the stack, which strictly shrinks the set of declared ids
    not yet on it. So a budget of one frame per declared id below the
    outermost call is never exhausted, and any larger budget gives the same
    result. *)
Theorem resolveDependencies_terminates ps patchId m :
  resolveDependencies (S (size (declared ps))) ps patchId m ≠ OutOfFuel ∧
  (∀ fuel, size (declared ps) < fuel →
     resolveDependencies fuel ps patchId m
     = resolveDependencies (S (size (declared ps))) ps patchId m) ∧
  (∀ fuel,
     (patchId ∈ resolved m → resolveDependencies (S fuel) ps patchId m = Done ([], m)) ∧
     (patchId ∉ resolved m → patchId ∈ visiting m →
        resolveDependencies (S fuel) ps patchId m = Exit (CircularDependency patchId)) ∧
     (patchId ∉ resolved m → patchId ∉ visiting m → patchId ∉ declared ps →
        resolveDependencies (S fuel) ps patchId m = Exit (PatchNotFound patchId)) ∧
     (patchId ∉ resolved m → patchId ∉ visiting m → patchId ∈ declared ps →
        size (declared ps ∖ ({[patchId]} ∪ visiting m)) < size (declared ps ∖ visiting m))).
Proof.
  assert (Hsz : size (declared ps ∖ visiting m) < S (size (declared ps))).
  { assert (size (declared ps ∖ visiting m) ≤ size (declared ps)).
    { apply subseteq_size. set_solver. }
    lia. }
  pose proof (resolveDependencies_fuel ps _ patchId m Hsz) as Hne.
  split; [done|]. split.
  { intros fuel Hfuel. eapply resolveDependencies_mono; [reflexivity|done|lia]. }
  intros fuel. split; [|split; [|split]].
  - intros Hr. simpl. by rewrite bool_decide_eq_true_2.
  - intros Hr Hv. simpl. rewrite bool_decide_eq_false_2 by done.
    by rewrite bool_decide_eq_true_2.
  - intros Hr Hv Hd. simpl. rewrite !bool_decide_eq_false_2 by done.
    apply findPatch_None in Hd. by rewrite Hd.
  - intros _ Hv Hd. apply subset_size, strict_spec_alt. split; [set_solver|].
    intros Heq. assert (patchId ∈ declared ps ∖ visiting m) as Hx by set_solver.
    rewrite <- Heq in Hx. set_solver.
Qed.

(** C4, as the code has it. When a cycle is reachable from a requested id,
    resolution returns no apply order: it exits with a configuration error.
    The error names an id on a cycle (circular dependency) or an undeclared
    id that is reachable too (patch not found); when every reachable id is
    declared it is always the circular-dependency error. *)
Theorem cycle_aborts_resolution ps requested r c :
  r ∈ requested → reachable ps r c → onCycle ps c →
  ∃ e, computeApplyOrder ps requested = Exit e ∧
       exitJustified ps requested e ∧
       (closedFrom ps requested → ∃ c', e = CircularDependency c').
Proof.
  intros Hr Hreach Hcyc.
  destruct (computeApplyOrder ps requested) as [order|e|] eqn:E.
  - exfalso. eapply computeApplyOrder_Done_acyclic; [exact E| |exact Hcyc].
    apply computeApplyOrder_Done in E as (_ & _ & Hiff & _). apply Hiff. by exists r.
  - exists e. split; [done|]. apply computeApplyOrder_Exit in E. split; [done|].
    intros Hclosed. destruct e as [c'|u]; [by exists c'|].
    destruct E as [Hu (r' & Hr' & Hreach')]. destruct Hu. by apply (Hclosed r').
  - by apply resolveAll_not_OutOfFuel in E.
Qed.

Lemma loop_onCycle : onCycle (patches loopConfig) "A".
Proof.
  apply (tc_l _ "A" "B" "A"); [|apply tc_once].
  - exists (mkPatch "A" true ["B"]). split; [reflexivity|simpl; repeat constructor].
  - exists (mkPatch "B" true ["A"]). split; [reflexivity|simpl; repeat constructor].
Qed.

Lemma cycle_aborts_resolution_witness :
  "A" ∈ ["A"; "B"] ∧ reachable (patches loopConfig) "A" "A" ∧
  onCycle (patches loopConfig) "A" ∧
  computeApplyOrder (patches loopConfig) ["A"; "B"] = Exit (CircularDependency "A") ∧
  ∃ e, computeApplyOrder (patches loopConfig) ["A"; "B"] = Exit e ∧
       exitJustified (patches loopConfig) ["A"; "B"] e ∧
       (closedFrom (patches loopConfig) ["A"; "B"] → ∃ c', e = CircularDependency c').
Proof.
  assert (Hin : "A" ∈ ["A"; "B"]) by left.
  split; [exact Hin|]. split; [apply rtc_refl|]. split; [exact loop_onCycle|].
  split; [vm_compute; reflexivity|].
  exact (cycle_aborts_resolution (patches loopConfig) ["A"; "B"] "A" "A"
           Hin (rtc_refl _ _) loop_onCycle).
Defined.

(** C4 as stated fails: with a cycle A -> B -> A reachable from the
    requested ids, the error names "Z", an undeclared dependency of A that
    the walk meets first and that lies on no cycle. *)
Lemma cycle_error_may_name_undeclared_id :
  onCycle (patches cycleConfig) "A" ∧
  "A" ∈ id <$> patchesToApply cycleConfig noOptions ∧
  applyOrderOf cycleConfig noOptions = Exit (PatchNotFound "Z") ∧
  ¬ onCycle (patches cycleConfig) "Z".
Proof.
  split; [|split; [|split]].
  - apply (tc_l _ "A" "B" "A"); [|apply tc_once].
    + exists (mkPatch "A" true ["Z"; "B"]). split; [reflexivity|simpl; repeat constructor].
    + exists (mkPatch "B" true ["A"]). split; [reflexivity|simpl; repeat constructor].
  - simpl. repeat constructor.
  - vm_compute. reflexivity.
  - intros H. apply onCycle_declared in H. revert H. unfold declared. simpl. set_solver.
Qed.

(** C5, as the code has it. An undeclared id that is reachable from a
    requested id makes resolution exit with a configuration error and no
    order; the error names an undeclared reachable id or an id on a cycle,
    whichever the walk meets first. The call made on an undeclared id (the
    two sets holding declared ids only) exits with the patch-not-found error
    naming that id, which differs from every circular-dependency error. *)
Theorem undeclared_aborts_resolution ps requested r u :
  r ∈ requested → reachable ps r u → u ∉ declared ps →
  (∃ e, computeApplyOrder ps requested = Exit e ∧ exitJustified ps requested e) ∧
  (∀ fuel m, resolved m ⊆ declared ps → visiting m ⊆ declared ps →
     resolveDependencies (S fuel) ps u m = Exit (PatchNotFound u)) ∧
  (∀ c, PatchNotFound u ≠ CircularDependency c).
Proof.
  intros Hr Hreach Hu. split; [|split].
  - destruct (computeApplyOrder ps requested) as [order|e|] eqn:E.
    + exfalso. apply computeApplyOrder_Done in E as (_ & _ & Hiff & Hdecl).
      apply Hu, Hdecl, Hiff. by exists r.
    + exists e. split; [done|]. by apply computeApplyOrder_Exit.
    + by apply resolveAll_not_OutOfFuel in E.
  - intros fuel m HR HV. simpl.
    rewrite bool_decide_eq_false_2 by set_solver.
    rewrite bool_decide_eq_false_2 by set_solver.
    apply findPatch_None in Hu. by rewrite Hu.
  - done.
Qed.

Lemma undeclared_aborts_resolution_witness :
  "A" ∈ ["A"] ∧ reachable (patches cycleConfig) "A" "Z" ∧
  ("Z" ∉ declared (patches cycleConfig)) ∧
  computeApplyOrder (patches cycleConfig) ["A"] = Exit (PatchNotFound "Z") ∧
  ((∃ e, computeApplyOrder (patches cycleConfig) ["A"] = Exit e ∧
         exitJustified (patches cycleConfig) ["A"] e) ∧
   (∀ fuel m, resolved m ⊆ declared (patches cycleConfig) →
      visiting m ⊆ declared (patches cycleConfig) →
      resolveDependencies (S fuel) (patches cycleConfig) "Z" m = Exit (PatchNotFound "Z")) ∧
   (∀ c, PatchNotFound "Z" ≠ CircularDependency c)).
Proof.
  assert (Hin : "A" ∈ ["A"]) by left.
  assert (Hreach : reachable (patches cycleConfig) "A" "Z").
  { apply rtc_once. exists (mkPatch "A" true ["Z"; "B"]).
    split; [reflexivity|simpl; left]. }
  assert (Hu : "Z" ∉ declared (patches cycleConfig)).
  { unfold declared. simpl. set_solver. }
  split; [exact Hin|]. split; [exact Hreach|]. split; [exact Hu|].
  split; [vm_compute; reflexivity|].
  exact (undeclared_aborts_resolution (patches cycleConfig) ["A"] "A" "Z" Hin Hreach Hu).
Defined.

(** C5 as stated fails: "Z" is referenced as a dependency (of the disabled
    patch C) and is declared nowhere, yet a plain apply run resolves its
    order and reports no error, because C is never reached. *)
Lemma unreached_undeclared_dependency_is_ignored :
  (∃ p, p ∈ patches danglingConfig ∧ "Z" ∈ dependencies p) ∧
  ("Z" ∉ declared (patches danglingConfig)) ∧
  applyOrderOf danglingConfig noOptions = Done ["A"].
Proof.
  split; [|split].
  - exists (mkPatch "C" false ["Z"]). split; [simpl; repeat constructor | simpl; left].
  - unfold declared. simpl. set_solver.
  - vm_compute. reflexivity.
Qed.

(** ** Properties of the verifier *)


Lemma run_error status : status ≠ 0%Z → run status = ShellError status.
Proof. unfold run. intros H. by destruct (Z.eqb_spec status 0). Qed.






(** ** Properties of the applier *)



(** A second call is a no-op whenever the first one left the verifier
    satisfied. *)
Lemma applyPatch_twice h patch w :
  checkPatchApplied h (fs (snd (applyPatch h patch w))) patch = true →
  applyPatch h patch (snd (applyPatch h patch w)) = (true, snd (applyPatch h patch w)).
Proof. intros H. unfold applyPatch at 1. by rewrite H. Qed.

(** C2, as the code has it. With the pre-check unsatisfied, the artifact
    and the tree present and the dry run passing, [applyPatch] runs the real
    [git apply]; when that command succeeds the result is success on the
    changed tree and the verifier is not consulted again, whatever the tree
    now holds; only a failing command leads to the verifier fallback. *)
Theorem applyPatch_applies_without_recheck h patch w status fs' :
  let patchFile := join h (PATCHES_DIR h) (file patch) in
  let w2 := setFs fs' (spawn (GitApply patchFile) (spawn (GitApplyCheck patchFile) w)) in
  checkPatchApplied h (fs w) patch = false →
  existsSync (fs w) patchFile = true →
  existsSync (fs w) (OPENCODE_DIR h) = true →
  gitApplyCheck h (fs w) patchFile = 0%Z →
  gitApply h (fs w) patchFile = (status, fs') →
  (status = 0%Z → applyPatch h patch w = (true, w2)) ∧
  (status ≠ 0%Z → applyPatch h patch w = applyPatchCatch h patch status w2).
Proof.
  intros patchFile w2 Hpre Hfile Hdir Hcheck Happly.
  unfold applyPatch. rewrite Hpre. fold patchFile. rewrite Hfile, Hdir. simpl.
  rewrite Hcheck. simpl. rewrite Happly. fold w2. split.
  - intros ->. done.
  - intros Hne. by rewrite run_error.
Qed.

Lemma applyPatch_applies_without_recheck_witness :
  let patchFile := "/patches/stale.patch" in
  let fs' := snd (gitApply demoHost (fs staleWorld) patchFile) in
  let w2 := setFs fs' (spawn (GitApply patchFile) (spawn (GitApplyCheck patchFile) staleWorld)) in
  checkPatchApplied demoHost (fs staleWorld) stalePatch = false ∧
  existsSync (fs staleWorld) patchFile = true ∧
  existsSync (fs staleWorld) "/oc" = true ∧
  gitApplyCheck demoHost (fs staleWorld) patchFile = 0%Z ∧
  gitApply demoHost (fs staleWorld) patchFile = (0%Z, fs') ∧
  ((0%Z = 0%Z → applyPatch demoHost stalePatch staleWorld = (true, w2)) ∧
   (0%Z ≠ 0%Z →
      applyPatch demoHost stalePatch staleWorld = applyPatchCatch demoHost stalePatch 0 w2)).
Proof.
  intros patchFile fs' w2.
  assert (H1 : checkPatchApplied demoHost (fs staleWorld) stalePatch = false)
    by (vm_compute; reflexivity).
  assert (H2 : existsSync (fs staleWorld) patchFile = true) by (vm_compute; reflexivity).
  assert (H3 : existsSync (fs staleWorld) "/oc" = true) by (vm_compute; reflexivity).
  assert (H4 : gitApplyCheck demoHost (fs staleWorld) patchFile = 0%Z)
    by (vm_compute; reflexivity).
  assert (H5 : gitApply demoHost (fs staleWorld) patchFile = (0%Z, fs'))
    by (vm_compute; reflexivity).
  split; [exact H1|]. split; [exact H2|]. split; [exact H3|]. split; [exact H4|].
  split; [exact H5|].
  exact (applyPatch_applies_without_recheck demoHost stalePatch staleWorld 0%Z fs'
           H1 H2 H3 H4 H5).
Defined.

(** C2 as stated fails: the stale artifact passes the dry run and applies,
    the verifier is still unsatisfied on the resulting tree, and the call
    nevertheless reports success. *)
Lemma stale_patch_counts_as_success :
  checkPatchApplied demoHost (fs staleWorld) stalePatch = false ∧
  gitApplyCheck demoHost (fs staleWorld) "/patches/stale.patch" = 0%Z ∧
  gitCalls (snd (applyPatch demoHost stalePatch staleWorld))
    = [GitApplyCheck "/patches/stale.patch"; GitApply "/patches/stale.patch"] ∧
  checkPatchApplied demoHost (fs (snd (applyPatch demoHost stalePatch staleWorld))) stalePatch
    = false ∧
  fst (applyPatch demoHost stalePatch staleWorld) = true.
Proof. vm_compute. repeat split; reflexivity. Qed.

(** C6. When the dry run or the real application fails, [applyPatch] asks
    the verifier once more, on the world the failed command left: if it is
    satisfied the result is success, otherwise the result is failure and the
    patch id and the command's exit code are printed. *)
Theorem applyPatch_failure_rechecks h patch w :
  let patchFile := join h (PATCHES_DIR h) (file patch) in
  let w1 := spawn (GitApplyCheck patchFile) w in
  checkPatchApplied h (fs w) patch = false →
  existsSync (fs w) patchFile = true →
  existsSync (fs w) (OPENCODE_DIR h) = true →
  (gitApplyCheck h (fs w) patchFile ≠ 0%Z →
     recheckedAfterFailure h patch (gitApplyCheck h (fs w) patchFile) w1
       (applyPatch h patch w)) ∧
  (gitApplyCheck h (fs w) patchFile = 0%Z →
     ∀ status fs', gitApply h (fs w) patchFile = (status, fs') → status ≠ 0%Z →
       recheckedAfterFailure h patch status (setFs fs' (spawn (GitApply patchFile) w1))
         (applyPatch h patch w)).
Proof.
  intros patchFile w1 Hpre Hfile Hdir.
  assert (Hcatch : ∀ c w', recheckedAfterFailure h patch c w' (applyPatchCatch h patch c w')).
  { intros c w'. unfold recheckedAfterFailure, applyPatchCatch.
    destruct (checkPatchApplied h (fs w') patch); split; done. }
  unfold applyPatch. rewrite Hpre. fold patchFile. rewrite Hfile, Hdir. simpl. split.
  - intros Hne. rewrite run_error by done. apply Hcatch.
  - intros Hok status fs' Happly Hne. rewrite Hok. simpl. rewrite Happly.
    rewrite run_error by done. apply Hcatch.
Qed.

Lemma applyPatch_failure_rechecks_witness :
  let patchFile := "/patches/good.patch" in
  let w1 := spawn (GitApplyCheck patchFile) editedWorld in
  checkPatchApplied demoHost (fs editedWorld) goodPatch = false ∧
  existsSync (fs editedWorld) patchFile = true ∧
  existsSync (fs editedWorld) "/oc" = true ∧
  gitApplyCheck demoHost (fs editedWorld) patchFile = 1%Z ∧
  recheckedAfterFailure demoHost goodPatch 1 w1 (applyPatch demoHost goodPatch editedWorld).
Proof.
  intros patchFile w1.
  assert (H1 : checkPatchApplied demoHost (fs editedWorld) goodPatch = false)
    by (vm_compute; reflexivity).
  assert (H2 : existsSync (fs editedWorld) patchFile = true) by (vm_compute; reflexivity).
  assert (H3 : existsSync (fs editedWorld) "/oc" = true) by (vm_compute; reflexivity).
  assert (H4 : gitApplyCheck demoHost (fs editedWorld) patchFile = 1%Z)
    by (vm_compute; reflexivity).
  split; [exact H1|]. split; [exact H2|]. split; [exact H3|]. split; [exact H4|].
  destruct (applyPatch_failure_rechecks demoHost goodPatch editedWorld H1 H2 H3) as [Hfail _].
  assert (Hne : gitApplyCheck demoHost (fs editedWorld) patchFile ≠ 0%Z)
    by (rewrite H4; discriminate).
  exact (Hfail Hne).
Defined.

(** ** Properties of the batch driver *)






Lemma applyPatches_finishes h config options w :
  fst (applyPatches h config options w) ≠ Unfinished.
Proof.
  unfold applyPatches. destruct (length _ =? 0); [done|].
  destruct (applyOrderOf config options) as [order|e|] eqn:E; [|done|].
  - destruct (applyInOrder h (patches config) order [] w) as [results w'].
    by destruct (0 <? _).
  - exfalso. revert E. apply resolveAll_not_OutOfFuel.
Qed.

(** The scenarios of the specification: a plain run leaves the disabled
    patch out, [--all] brings it in after its dependency. *)
Example scenario_enabled_only : applyOrderOf abcConfig noOptions = Done ["A"; "B"].
Proof. vm_compute. reflexivity. Qed.

Example scenario_all :
  applyOrderOf abcConfig {| opt_category := None; opt_all := true |} = Done ["A"; "B"; "C"].
Proof. vm_compute. reflexivity. Qed.

(** ** Properties of [enablePatch] and [disablePatch] *)

Lemma dependents_spec config patchId q :
  q ∈ dependents config patchId ↔
  q ∈ patches config ∧ enabled q = true ∧ patchId ∈ dependencies q.
Proof.
  unfold dependents. rewrite list_elem_of_In, filter_In, <- list_elem_of_In.
  rewrite andb_true_iff, bool_decide_eq_true. tauto.
Qed.


Lemma print_saved s msgs w : saved (print s msgs w) = saved w.
Proof. done. Qed.



(** ** Further properties of the resolver *)


Section ResolverMore.
Variable ps : list PatchConfig.

Lemma resolve_step_emitted fuel acc R r deps m' :
  emitted ps ∅ acc R →
  resolveDependencies fuel ps r {| resolved := R; visiting := ∅ |} = Done (deps, m') →
  pushNew acc deps = acc ++ deps ∧ emitted ps ∅ (acc ++ deps) (resolved m').
Proof.
  intros Hacc E.
  apply resolveDependencies_Done in E as (_ & E & _ & _ & _). simpl in E. split.
  - destruct E as (_ & Hnd & Hfresh & _). apply pushNew_fresh; [done|].
    intros d Hd Hin. apply (Hfresh d Hd). destruct Hacc as [-> _]. set_solver.
  - by eapply emitted_app.
Qed.

Lemma emitted_set acc R : emitted ps ∅ acc R → R = list_to_set acc.
Proof. intros [-> _]. set_solver. Qed.

Lemma resolveAll_app fuel r1 r2 :
  ∀ R acc, emitted ps ∅ acc R →
    resolveAll fuel ps (r1 ++ r2) R acc
    = match resolveAll fuel ps r1 R acc with
      | Done o1 => resolveAll fuel ps r2 (list_to_set o1) o1
      | Exit e => Exit e
      | OutOfFuel => OutOfFuel
      end.
Proof.
  induction r1 as [|r rest IH]; intros R acc Hacc.
  - simpl. by rewrite (emitted_set _ _ Hacc).
  - cbn [app resolveAll].
    destruct (resolveDependencies fuel ps r {| resolved := R; visiting := ∅ |})
      as [[deps m']| |] eqn:E; [|done|done].
    destruct (resolve_step_emitted _ _ _ _ _ _ Hacc E) as [Hpush Hem].
    rewrite Hpush. by apply IH.
Qed.

Lemma resolveAll_prefix fuel requested :
  ∀ R acc order, emitted ps ∅ acc R →
    resolveAll fuel ps requested R acc = Done order → acc `prefix_of` order.
Proof.
  induction requested as [|r rest IH]; intros R acc order Hacc H.
  - simpl in H. injection H as <-. done.
  - cbn [resolveAll] in H.
    destruct (resolveDependencies fuel ps r {| resolved := R; visiting := ∅ |})
      as [[deps m']| |] eqn:E; [|done|done].
    destruct (resolve_step_emitted _ _ _ _ _ _ Hacc E) as [Hpush Hem].
    rewrite Hpush in H. apply IH in H; [|done].
    etrans; [|exact H]. by apply prefix_app_r.
Qed.

Lemma resolveAll_emitted fuel requested :
  ∀ R acc order, emitted ps ∅ acc R →
    resolveAll fuel ps requested R acc = Done order →
    emitted ps ∅ order (list_to_set order).
Proof.
  intros R acc order Hacc H.
  apply resolveAll_Done in H as (R' & E' & _); [|done].
  by rewrite <- (emitted_set _ _ E').
Qed.

(** Requests compose from left to right: the order for a list of requests
    starts with the order for any initial part of the list, and an error
    met while resolving the initial part is the error of the whole list. *)
Theorem computeApplyOrder_app r1 r2 :
  (∀ e, computeApplyOrder ps r1 = Exit e → computeApplyOrder ps (r1 ++ r2) = Exit e) ∧
  (∀ order, computeApplyOrder ps (r1 ++ r2) = Done order →
     ∃ o1, computeApplyOrder ps r1 = Done o1 ∧ o1 `prefix_of` order).
Proof.
  unfold computeApplyOrder.
  pose proof (resolveAll_app (enoughFuel ps) r1 r2 ∅ [] (emitted_nil ps ∅)) as Happ.
  split.
  - intros e E. by rewrite Happ, E.
  - intros order H. rewrite Happ in H.
    destruct (resolveAll (enoughFuel ps) ps r1 ∅ []) as [o1| |] eqn:E; [|done|done].
    exists o1. split; [done|].
    eapply resolveAll_prefix; [|exact H].
    eapply resolveAll_emitted; [apply emitted_nil|exact E].
Qed.

(** Requesting again ids that the order already holds changes nothing:
    each of them is found resolved and contributes no id. *)
Theorem computeApplyOrder_absorbs requested order extra :
  computeApplyOrder ps requested = Done order →
  (∀ x, x ∈ extra → x ∈ order) →
  computeApplyOrder ps (requested ++ extra) = Done order.
Proof.
  unfold computeApplyOrder. intros E Hextra.
  rewrite (resolveAll_app _ _ _ ∅ [] (emitted_nil ps ∅)), E.
  clear E. induction extra as [|x rest IH]; [done|].
  cbn [resolveAll]. unfold enoughFuel at 1. cbn [resolveDependencies].
  rewrite bool_decide_eq_true_2.
  2:{ simpl. apply elem_of_list_to_set, Hextra. left. }
  simpl. apply IH. intros y Hy. apply Hextra. by right.
Qed.
End ResolverMore.

Lemma computeApplyOrder_absorbs_witness :
  computeApplyOrder (patches abcConfig) ["B"] = Done ["A"; "B"] ∧
  (∀ x, x ∈ ["A"; "B"] → x ∈ ["A"; "B"]) ∧
  computeApplyOrder (patches abcConfig) (["B"] ++ ["A"; "B"]) = Done ["A"; "B"].
Proof.
  assert (E : computeApplyOrder (patches abcConfig) ["B"] = Done ["A"; "B"])
    by (vm_compute; reflexivity).
  split; [exact E|]. split; [done|].
  exact (computeApplyOrder_absorbs (patches abcConfig) ["B"] ["A"; "B"] ["A"; "B"]
           E (λ x H, H)).
Defined.

(** A call started with both sets empty, as for the first requested id:
    the returned order ends with the id asked for and holds, once each,
    exactly the ids reachable from it; when the call returns, the resolved
    set holds the ids of the order and the stack is empty again. *)
Theorem resolveDependencies_from_scratch ps fuel x order m' :
  resolveDependencies fuel ps x {| resolved := ∅; visiting := ∅ |} = Done (order, m') →
  last order = Some x ∧
  NoDup order ∧
  (∀ y, y ∈ order ↔ reachable ps x y) ∧
  resolved m' = list_to_set order ∧
  visiting m' = ∅.
Proof.
  intros H.
  assert (Hlast : last order = Some x).
  { destruct fuel as [|fuel]; [done|]. cbn [resolveDependencies resolved visiting] in H.
    rewrite !bool_decide_eq_false_2 in H by set_solver.
    destruct (findPatch ps x) as [p|]; [|done].
    destruct (forDeps _ _ _ _) as [[o m2]| |]; [|done|done].
    injection H as <- _. apply last_snoc. }
  apply resolveDependencies_Done in H as (Hv & Hem & Hx & _ & Hre). simpl in *.
  pose proof (emitted_set _ _ _ Hem) as HR.
  destruct Hem as (_ & Hnd & _ & Hord).
  split; [done|]. split; [done|]. split; [|done].
  intros y. split; [intros Hy; by apply Hre|].
  intros Hr. assert (Hxo : x ∈ order) by (rewrite HR in Hx; set_solver).
  assert (Hclosed : ∀ a c, reachable ps a c → a ∈ order → c ∈ order).
  { clear -Hord. intros a c Hac. induction Hac as [|a b c Hab _ IH]; [done|].
    intros Ha. apply IH. destruct (Hord a b Ha Hab) as [?|Hb]; [set_solver|].
    by destruct (before_elem _ _ _ Hb). }
  by apply (Hclosed x).
Qed.

Lemma resolveDependencies_from_scratch_witness :
  resolveDependencies 3 (patches abcConfig) "B" {| resolved := ∅; visiting := ∅ |}
  = Done (["A"; "B"], {| resolved := {["B"]} ∪ ({["A"]} ∪ ∅); visiting := ∅ |}) ∧
  last ["A"; "B"] = Some "B" ∧
  (∀ y, y ∈ ["A"; "B"] ↔ reachable (patches abcConfig) "B" y).
Proof.
  assert (E : resolveDependencies 3 (patches abcConfig) "B" {| resolved := ∅; visiting := ∅ |}
              = Done (["A"; "B"], {| resolved := {["B"]} ∪ ({["A"]} ∪ ∅); visiting := ∅ |})).
  { vm_compute. reflexivity. }
  split; [exact E|].
  destruct (resolveDependencies_from_scratch _ _ _ _ _ E) as (Hl & _ & Hiff & _).
  split; [exact Hl | exact Hiff].
Defined.

(** ** Properties of [setEnabled] *)



Lemma findPatch_setEnabled ps x b y :
  findPatch (setEnabled ps x b) y
  = if bool_decide (y = x) then withEnabled b <$> findPatch ps y else findPatch ps y.
Proof.
  unfold findPatch. induction ps as [|p rest IH]; simpl.
  - by case_bool_decide.
  - destruct (decide (id p = x)) as [Hp|Hp].
    + rewrite (bool_decide_eq_true_2 _ Hp). simpl.
      destruct (decide (y = x)) as [->|Hy].
      * rewrite !bool_decide_eq_true_2 by done. done.
      * rewrite (bool_decide_eq_false_2 (y = x)) by done.
        rewrite !bool_decide_eq_false_2 by congruence. done.
    + rewrite (bool_decide_eq_false_2 _ Hp). simpl.
      destruct (decide (id p = y)) as [Hpy|Hpy].
      * rewrite (bool_decide_eq_true_2 _ Hpy).
        rewrite bool_decide_eq_false_2 by congruence. done.
      * rewrite (bool_decide_eq_false_2 _ Hpy). apply IH.
Qed.

(** Setting the flag of a patch touches nothing else: the records keep
    their positions and all their other fields, only a record with the given
    id can change, and every lookup finds the same record as before, with
    the new flag when it is the one looked up by that id. *)
Theorem setEnabled_only_flag ps x b :
  withEnabled true <$> setEnabled ps x b = withEnabled true <$> ps ∧
  (∀ i p q, ps !! i = Some p → setEnabled ps x b !! i = Some q →
            q = p ∨ (id p = x ∧ q = withEnabled b p)) ∧
  (∀ y, findPatch (setEnabled ps x b) y
        = if bool_decide (y = x) then withEnabled b <$> findPatch ps y
          else findPatch ps y).
Proof.
  split; [|split].
  - induction ps as [|p rest IH]; [done|]. cbn [setEnabled].
    case_bool_decide; rewrite !fmap_cons; [done|]. by rewrite IH.
  - induction ps as [|p rest IH]; intros i p' q Hp Hq; [done|]. simpl in Hq.
    case_bool_decide as Hid.
    + destruct i as [|i]; simpl in *.
      * injection Hp as <-. injection Hq as <-. by right.
      * left. congruence.
    + destruct i as [|i]; simpl in *.
      * left. congruence.
      * by eapply IH.
  - apply findPatch_setEnabled.
Qed.

Lemma setEnabled_length ps x b : length (setEnabled ps x b) = length ps.
Proof.
  induction ps as [|p rest IH]; simpl; [done|]. case_bool_decide; simpl; [done|].
  by rewrite IH.
Qed.

Lemma forDeps_ext rec1 rec2 deps :
  (∀ d m, rec1 d m = rec2 d m) →
  ∀ acc m, forDeps rec1 deps acc m = forDeps rec2 deps acc m.
Proof.
  intros Hrec. induction deps as [|d rest IH]; intros acc m; simpl; [done|].
  rewrite Hrec. destruct (rec2 d m) as [[sub m1]| |]; [apply IH|done|done].
Qed.

Lemma resolveDependencies_ext ps ps' fuel :
  (∀ y, dependencies <$> findPatch ps y = dependencies <$> findPatch ps' y) →
  ∀ x m, resolveDependencies fuel ps x m = resolveDependencies fuel ps' x m.
Proof.
  intros Hdeps. induction fuel as [|fuel IH]; intros x m; simpl; [done|].
  case_bool_decide; [done|]. case_bool_decide; [done|].
  specialize (Hdeps x).
  destruct (findPatch ps x) as [p|], (findPatch ps' x) as [p'|]; simpl in Hdeps;
    try done.
  injection Hdeps as ->. by rewrite (forDeps_ext _ _ _ IH).
Qed.

Lemma resolveAll_ext ps ps' fuel requested :
  (∀ y, dependencies <$> findPatch ps y = dependencies <$> findPatch ps' y) →
  ∀ R acc, resolveAll fuel ps requested R acc = resolveAll fuel ps' requested R acc.
Proof.
  intros Hdeps. induction requested as [|x rest IH]; intros R acc; [done|].
  cbn [resolveAll]. rewrite (resolveDependencies_ext ps ps' fuel Hdeps).
  destruct (resolveDependencies fuel ps' x _) as [[deps m']| |]; [apply IH|done|done].
Qed.

(** The apply order depends on the ids and the dependency lists only:
    switching a patch on or off leaves the order computed for given
    requests, or the error reported for them, as it was. *)
Theorem computeApplyOrder_ignores_flags ps x b requested :
  computeApplyOrder (setEnabled ps x b) requested = computeApplyOrder ps requested.
Proof.
  unfold computeApplyOrder, enoughFuel. rewrite setEnabled_length.
  apply resolveAll_ext. intros y. rewrite findPatch_setEnabled.
  case_bool_decide; [|done]. by destruct (findPatch ps y).
Qed.

(** ** Further properties of [enablePatch] and [disablePatch] *)

Lemma elem_of_setEnabled ps x b q :
  q ∈ setEnabled ps x b → q ∈ ps ∨ ∃ p, p ∈ ps ∧ id p = x ∧ q = withEnabled b p.
Proof.
  induction ps as [|p rest IH]; simpl; [intros H; by apply elem_of_nil in H|].
  case_bool_decide as Hid.
  - intros [->|Hq]%elem_of_cons.
    + right. exists p. split; [left|done].
    + left. by right.
  - intros [->|Hq]%elem_of_cons; [left; left|].
    destruct (IH Hq) as [?|(p' & ? & ? & ?)]; [left; by right|].
    right. exists p'. split; [by right|done].
Qed.







(** [disablePatch] keeps the invariant its refusal is there for: if every
    dependency of an enabled patch is enabled, then so it is in whatever
    document the command saves; it saves at most one, and in that one the
    patch is disabled. *)
Theorem disable_keeps_enabledClosed config x w :
  enabledClosed (patches config) →
  saved (snd (disablePatch config x w)) = saved w ∨
  ∃ c patch, saved (snd (disablePatch config x w)) = saved w ++ [c] ∧
       enabledClosed (patches c) ∧
       findPatch (patches config) x = Some patch ∧
       findPatch (patches c) x = Some (withEnabled false patch).
Proof.
  intros Hclosed. unfold disablePatch.
  destruct (findPatch (patches config) x) as [patch|] eqn:Hfind; [|by left].
  destruct (enabled patch) eqn:Hen; simpl; [|by left].
  destruct (dependents config x) as [|d ds] eqn:Hdeps; simpl; [|by left].
  right. exists (updateEnabled config x false), patch.
  split; [done|]. split; [|split; [done|]].
  2:{ simpl. rewrite findPatch_setEnabled, bool_decide_eq_true_2 by done.
      by rewrite Hfind. }
  intros q d p Hq Hqen Hd Hp. simpl in *.
  apply elem_of_setEnabled in Hq as [Hq|(p0 & _ & _ & ->)]; [|done].
  rewrite findPatch_setEnabled in Hp. case_bool_decide as Hdx.
  - subst d. exfalso.
    assert (q ∈ dependents config x) as Hin by (by apply dependents_spec).
    rewrite Hdeps in Hin. by apply elem_of_nil in Hin.
  - by eapply Hclosed.
Qed.

Lemma abc_enabledClosed : enabledClosed (patches abcConfig).
Proof.
  intros q d p Hq Hen Hd Hf. simpl in Hq.
  repeat (apply elem_of_cons in Hq as [->|Hq]); simpl in *.
  - by apply elem_of_nil in Hd.
  - apply list_elem_of_singleton in Hd as ->. by injection Hf as <-.
  - done.
  - by apply elem_of_nil in Hq.
Qed.

Lemma disable_keeps_enabledClosed_witness :
  enabledClosed (patches abcConfig) ∧
  saved (snd (disablePatch abcConfig "B" (mkWorld []))) = [updateEnabled abcConfig "B" false] ∧
  (saved (snd (disablePatch abcConfig "B" (mkWorld []))) = saved (mkWorld []) ∨
   ∃ c patch, saved (snd (disablePatch abcConfig "B" (mkWorld []))) = saved (mkWorld []) ++ [c] ∧
        enabledClosed (patches c) ∧
        findPatch (patches abcConfig) "B" = Some patch ∧
        findPatch (patches c) "B" = Some (withEnabled false patch)).
Proof.
  split; [exact abc_enabledClosed|]. split; [reflexivity|].
  exact (disable_keeps_enabledClosed abcConfig "B" (mkWorld []) abc_enabledClosed).
Defined.

(** ** Further properties of the verifier and the applier *)




Lemma applyPatchCatch_frame h patch c w :
  fs (snd (applyPatchCatch h patch c w)) = fs w ∧
  gitCalls (snd (applyPatchCatch h patch c w)) = gitCalls w ∧
  saved (snd (applyPatchCatch h patch c w)) = saved w ∧
  (∃ msgs, console (snd (applyPatchCatch h patch c w)) = console w ++ msgs) ∧
  fst (applyPatchCatch h patch c w) = checkPatchApplied h (fs w) patch.
Proof.
  unfold applyPatchCatch. destruct (checkPatchApplied h (fs w) patch); simpl.
  - repeat split; try done. exists []. by rewrite app_nil_r.
  - repeat split; try done. by eexists.
Qed.

Lemma applyPatch_effects h patch w :
  let patchFile := join h (PATCHES_DIR h) (file patch) in
  let r := applyPatch h patch w in
  saved (snd r) = saved w ∧
  (∃ msgs, console (snd r) = console w ++ msgs) ∧
  ((gitCalls (snd r) = gitCalls w ∧ fs (snd r) = fs w) ∨
   (gitCalls (snd r) = gitCalls w ++ [GitApplyCheck patchFile] ∧ fs (snd r) = fs w ∧
    gitApplyCheck h (fs w) patchFile ≠ 0%Z) ∨
   (gitCalls (snd r) = gitCalls w ++ [GitApplyCheck patchFile; GitApply patchFile] ∧
    fs (snd r) = snd (gitApply h (fs w) patchFile) ∧
    gitApplyCheck h (fs w) patchFile = 0%Z)).
Proof.
  intros patchFile r. unfold r, applyPatch. fold patchFile.
  destruct (checkPatchApplied h (fs w) patch).
  { simpl. split; [done|]. split; [exists []; by rewrite app_nil_r|]. by left. }
  destruct (existsSync (fs w) patchFile); simpl.
  2:{ split; [done|]. split; [by eexists|]. by left. }
  destruct (existsSync (fs w) (OPENCODE_DIR h)); simpl.
  2:{ split; [done|]. split; [by eexists|]. by left. }
  destruct (decide (gitApplyCheck h (fs w) patchFile = 0%Z)) as [Hok|Hne].
  - rewrite Hok. change (run 0) with ShellOk. cbv iota.
    destruct (gitApply h (fs w) patchFile) as [status fs'] eqn:Ha. simpl.
    destruct (decide (status = 0%Z)) as [->|Hs].
    + change (run 0) with ShellOk. simpl.
      split; [done|]. split; [exists []; by rewrite app_nil_r|].
      right. right. by rewrite <- app_assoc.
    + rewrite (run_error _ Hs).
      match goal with |- context [applyPatchCatch h patch ?c ?w'] =>
        destruct (applyPatchCatch_frame h patch c w') as (Hf & Hg & Hsv & Hc & _) end.
      rewrite Hf, Hg, Hsv. simpl. split; [done|]. split; [exact Hc|].
      right. right. by rewrite <- app_assoc.
  - rewrite (run_error _ Hne).
    match goal with |- context [applyPatchCatch h patch ?c ?w'] =>
      destruct (applyPatchCatch_frame h patch c w') as (Hf & Hg & Hsv & Hc & _) end.
    rewrite Hf, Hg, Hsv. simpl. split; [done|]. split; [exact Hc|].
    right. left. done.
Qed.

(** One call of [applyPatch] spawns no git command, or the dry run alone
    when it fails, or the dry run and then the real [git apply] when the dry
    run passes: the real command never runs without a passing dry run, and
    the tree is what it was unless the real command ran. The call never
    saves the configuration and only adds to the console. *)
Theorem applyPatch_git_discipline h patch w :
  let patchFile := join h (PATCHES_DIR h) (file patch) in
  let r := applyPatch h patch w in
  saved (snd r) = saved w ∧
  (∃ msgs, console (snd r) = console w ++ msgs) ∧
  ((gitCalls (snd r) = gitCalls w ∧ fs (snd r) = fs w) ∨
   (gitCalls (snd r) = gitCalls w ++ [GitApplyCheck patchFile] ∧ fs (snd r) = fs w ∧
    gitApplyCheck h (fs w) patchFile ≠ 0%Z) ∨
   (gitCalls (snd r) = gitCalls w ++ [GitApplyCheck patchFile; GitApply patchFile] ∧
    fs (snd r) = snd (gitApply h (fs w) patchFile) ∧
    gitApplyCheck h (fs w) patchFile = 0%Z)).
Proof. apply applyPatch_effects. Qed.

(** When [applyPatch] reports failure: exactly when the verifier does not
    find the effect beforehand and then the artifact is missing, or the
    tree is missing, or the dry run fails, or the real application fails
    and the verifier is still unsatisfied on the tree it left. In each of
    these cases the verifier is unsatisfied on the resulting tree. *)
Theorem applyPatch_fails_iff h patch w :
  let patchFile := join h (PATCHES_DIR h) (file patch) in
  (fst (applyPatch h patch w) = false ↔
   checkPatchApplied h (fs w) patch = false ∧
   (existsSync (fs w) patchFile = false ∨
    existsSync (fs w) (OPENCODE_DIR h) = false ∨
    gitApplyCheck h (fs w) patchFile ≠ 0%Z ∨
    (fst (gitApply h (fs w) patchFile) ≠ 0%Z ∧
     checkPatchApplied h (snd (gitApply h (fs w) patchFile)) patch = false))) ∧
  (fst (applyPatch h patch w) = false →
   checkPatchApplied h (fs (snd (applyPatch h patch w))) patch = false).
Proof.
  intros patchFile. unfold applyPatch. fold patchFile.
  destruct (checkPatchApplied h (fs w) patch) eqn:Hpre.
  { simpl. split; [|done]. split; [done|]. by intros [? _]. }
  destruct (existsSync (fs w) patchFile) eqn:Hfile; simpl.
  2:{ split; [|done]. split; [|done]. intros _. split; [done|]. by left. }
  destruct (existsSync (fs w) (OPENCODE_DIR h)) eqn:Hdir; simpl.
  2:{ split; [|done]. split; [|done]. intros _. split; [done|]. right. by left. }
  destruct (decide (gitApplyCheck h (fs w) patchFile = 0%Z)) as [Hok|Hne].
  - rewrite Hok. change (run 0) with ShellOk. cbv iota.
    destruct (gitApply h (fs w) patchFile) as [status fs'] eqn:Ha. simpl.
    destruct (decide (status = 0%Z)) as [->|Hs].
    + change (run 0) with ShellOk. simpl. split; [|done]. split; [done|].
      intros [_ [?|[?|[?|[? _]]]]]; done.
    + rewrite (run_error _ Hs). unfold applyPatchCatch. simpl.
      destruct (checkPatchApplied h fs' patch) eqn:Hpost; simpl.
      * split; [|done]. split; [done|]. intros [_ [?|[?|[?|[_ ?]]]]]; done.
      * split; [|done]. split; [|done]. intros _. split; [done|]. by do 3 right.
  - rewrite (run_error _ Hne). unfold applyPatchCatch. simpl. rewrite Hpre. simpl.
    split; [|done]. split; [|done]. intros _. split; [done|]. right. right. by left.
Qed.

(** ** Further properties of the batch driver *)

(** What the filter of [applyPatches] selects: an empty [--category] value
    counts as no category at all; [--all] without a category selects every
    patch; a category selects only patches of that category; and the
    selection keeps the order of the configuration. *)
Theorem selection_rules config :
  (∀ a, patchesToApply config {| opt_category := Some ""; opt_all := a |}
        = patchesToApply config {| opt_category := None; opt_all := a |}) ∧
  patchesToApply config {| opt_category := None; opt_all := true |} = patches config ∧
  (∀ c a p, c ≠ "" →
     p ∈ patchesToApply config {| opt_category := Some c; opt_all := a |} → category p = c) ∧
  (∀ c p, p ∈ patchesToApply config {| opt_category := c; opt_all := false |} →
     enabled p = true) ∧
  (∀ o, sublist (patchesToApply config o) (patches config)).
Proof.
  unfold patchesToApply. split; [|split; [|split; [|split]]].
  - done.
  - induction (patches config) as [|p l IH]; simpl; [done|]. by rewrite IH.
  - intros c a p Hc Hp. apply list_elem_of_In, filter_In in Hp as [_ Hsel].
    unfold selected in Hsel. simpl in Hsel.
    destruct (String.eqb_spec c ""); [done|]. simpl in Hsel.
    case_bool_decide as Heq; simpl in Hsel; [congruence|done].
  - intros c p Hp. apply list_elem_of_In, filter_In in Hp as [_ Hsel].
    unfold selected in Hsel. simpl in Hsel.
    destruct (_ && _); [done|]. by destruct (enabled p).
  - intros o. induction (patches config) as [|p l IH]; simpl; [constructor|].
    destruct (selected o p); by constructor.
Qed.

Lemma applyInOrder_frame h ps order :
  ∀ results w,
    let r := applyInOrder h ps order results w in
    saved (snd r) = saved w ∧
    ∃ calls, gitCalls (snd r) = gitCalls w ++ calls ∧
             ((∀ f, GitApply f ∉ calls) → fs (snd r) = fs w).
Proof.
  induction order as [|x rest IH]; intros results w; simpl.
  - split; [done|]. exists []. by rewrite app_nil_r.
  - destruct (findPatch ps x) as [patch|]; [|apply IH].
    destruct (applyPatch_effects h patch w) as (Hs & _ & Hcases). simpl in *.
    destruct (applyPatch h patch w) as [result w1]. simpl in *.
    destruct (IH (results ++ [result]) w1) as (Hs' & calls & Hg & Hfs). simpl in *.
    split; [congruence|].
    destruct Hcases as [[Hgc Hf]|[(Hgc & Hf & _)|(Hgc & Hf & _)]].
    + exists calls. split; [congruence|]. intros Hno. rewrite Hfs; done.
    + eexists. split; [rewrite Hg, Hgc, <- app_assoc; reflexivity|].
      intros Hno. rewrite Hfs; [done|]. intros f Hin. apply (Hno f), elem_of_app. by right.
    + eexists. split; [rewrite Hg, Hgc, <- app_assoc; reflexivity|].
      intros Hno. exfalso. apply (Hno (join h (PATCHES_DIR h) (file patch))).
      apply elem_of_app. left. right. left.
Qed.

(** A whole [applyPatches] run never saves the configuration, only appends
    to the list of spawned git commands, and leaves the tree as it was
    unless one of the commands it spawned is a real [git apply]. *)
Theorem applyPatches_frame h config options w :
  let r := applyPatches h config options w in
  saved (snd r) = saved w ∧
  ∃ calls, gitCalls (snd r) = gitCalls w ++ calls ∧
           ((∀ f, GitApply f ∉ calls) → fs (snd r) = fs w).
Proof.
  unfold applyPatches.
  assert (Hsame : ∀ s msgs, saved (print s msgs w) = saved w ∧
            ∃ calls, gitCalls (print s msgs w) = gitCalls w ++ calls ∧
                     ((∀ f, GitApply f ∉ calls) → fs (print s msgs w) = fs w)).
  { intros s msgs. split; [done|]. exists []. by rewrite app_nil_r. }
  destruct (length _ =? 0); [simpl; apply (Hsame Stdout [MsgNoPatchesToApply])|].
  destruct (applyOrderOf config options) as [order|e|]; simpl.
  - pose proof (applyInOrder_frame h (patches config) order [] w) as Hloop. simpl in Hloop.
    destruct (applyInOrder h (patches config) order [] w) as [results w']. simpl in *.
    by destruct (0 <? _).
  - apply (Hsame Stderr [MsgConfigError e]).
  - split; [done|]. exists []. by rewrite app_nil_r.
Qed.

(** A configuration error stops the run before anything is touched: when a
    selected patch reaches an id that lies on a cycle or is not declared,
    [applyPatches] prints the error and exits with code 1 without spawning
    a git command or changing a file. *)
Theorem applyPatches_config_error h config options w r c :
  r ∈ id <$> patchesToApply config options →
  reachable (patches config) r c →
  onCycle (patches config) c ∨ c ∉ declared (patches config) →
  ∃ e, applyOrderOf config options = Exit e ∧
       applyPatches h config options w = (Exited 1, print Stderr [MsgConfigError e] w).
Proof.
  intros Hr Hreach Hbad.
  assert (Hne : (length (patchesToApply config options) =? 0) = false).
  { destruct (patchesToApply config options); [by apply elem_of_nil in Hr|done]. }
  unfold applyPatches. rewrite Hne. unfold applyOrderOf.
  destruct (computeApplyOrder _ _) as [order|e|] eqn:E.
  - exfalso. pose proof (computeApplyOrder_Done _ _ _ E) as (_ & _ & Hiff & Hdecl).
    assert (Hc : c ∈ order) by (apply Hiff; by exists r).
    destruct Hbad as [Hcyc|Hun]; [|by apply Hun, Hdecl].
    by eapply computeApplyOrder_Done_acyclic.
  - by exists e.
  - by apply resolveAll_not_OutOfFuel in E.
Qed.

Lemma applyPatches_config_error_witness :
  "A" ∈ id <$> patchesToApply loopConfig noOptions ∧
  reachable (patches loopConfig) "A" "A" ∧
  applyPatches demoHost loopConfig noOptions editedWorld
  = (Exited 1, print Stderr [MsgConfigError (CircularDependency "A")] editedWorld).
Proof.
  assert (Hin : "A" ∈ id <$> patchesToApply loopConfig noOptions) by (simpl; left).
  split; [exact Hin|]. split; [apply rtc_refl|].
  destruct (applyPatches_config_error demoHost loopConfig noOptions editedWorld "A" "A"
              Hin (rtc_refl _ _) (or_introl loop_onCycle)) as (e & He & Hrun).
  assert (e = CircularDependency "A") as ->.
  { assert (Hc : applyOrderOf loopConfig noOptions = Exit (CircularDependency "A"))
      by (vm_compute; reflexivity).
    congruence. }
  exact Hrun.
Defined.

Lemma applyInOrder_satisfied h ps w order :
  (∀ p, p ∈ ps → checkPatchApplied h (fs w) p = true) →
  ∀ results, ∃ n, applyInOrder h ps order results w = (results ++ replicate n true, w).
Proof.
  intros Hall. induction order as [|x rest IH]; intros results; simpl.
  - exists 0. by rewrite app_nil_r.
  - destruct (findPatch ps x) as [patch|] eqn:Hf; [|apply IH].
    apply findPatch_Some in Hf as [_ Hin].
    assert (E : applyPatch h patch w = (true, w)).
    { unfold applyPatch. by rewrite (Hall patch Hin). }
    rewrite E. destruct (IH (results ++ [true])) as (n & Hn).
    exists (S n). rewrite Hn. by rewrite <- app_assoc.
Qed.

(** Running [applyPatches] on a tree where the verifier finds every patch
    of the configuration is a no-op: once the order is resolved, the run
    returns normally and the world is exactly what it was. *)
Theorem applyPatches_noop_when_applied h config options w order :
  (∀ p, p ∈ patches config → checkPatchApplied h (fs w) p = true) →
  patchesToApply config options ≠ [] →
  applyOrderOf config options = Done order →
  applyPatches h config options w = (Returned, w).
Proof.
  intros Hall Hsel Horder. unfold applyPatches. rewrite Horder.
  destruct (patchesToApply config options) as [|p l]; [done|]. simpl.
  destruct (applyInOrder_satisfied h (patches config) w order Hall []) as (n & ->).
  simpl. assert (List.filter negb (replicate n true) = []) as ->; [|done].
  induction n as [|n IH]; simpl; done.
Qed.

Lemma applyPatches_noop_when_applied_witness :
  (∀ p, p ∈ patches abcConfig → checkPatchApplied demoHost (fs editedWorld) p = true) ∧
  patchesToApply abcConfig noOptions ≠ [] ∧
  applyOrderOf abcConfig noOptions = Done ["A"; "B"] ∧
  applyPatches demoHost abcConfig noOptions editedWorld = (Returned, editedWorld).
Proof.
  assert (H1 : ∀ p, p ∈ patches abcConfig →
                    checkPatchApplied demoHost (fs editedWorld) p = true).
  { intros p Hp. simpl in Hp.
    repeat (apply elem_of_cons in Hp as [->|Hp]); try reflexivity.
    by apply elem_of_nil in Hp. }
  assert (H2 : patchesToApply abcConfig noOptions ≠ []) by (simpl; discriminate).
  assert (H3 : applyOrderOf abcConfig noOptions = Done ["A"; "B"])
    by (vm_compute; reflexivity).
  split; [exact H1|]. split; [exact H2|]. split; [exact H3|].
  exact (applyPatches_noop_when_applied demoHost abcConfig noOptions editedWorld _ H1 H2 H3).
Defined.

(** ** Properties of the command line *)

Lemma parseOptions_render o rest acc :
  parseOptions (renderOptions o ++ rest) acc = parseOptions rest (laterWins acc o).
Proof.
  assert (Hacc : ∀ a, {| cli_patch := cli_patch a; cli_category := cli_category a;
                         cli_all := cli_all a || false |} = a).
  { intros [? ? []]; done. }
  destruct o as [[p|] [c|] []], acc as [ap ac aa]; unfold renderOptions, laterWins; simpl;
    try (destruct rest as [|v rest]; simpl; rewrite ?orb_true_r, ?orb_false_r; reflexivity).
Qed.

(** Parsing reads back what a command line spells out, whatever the
    values are (a value that looks like a flag is taken as the value); when
    options are spelled out twice, every option given the second time wins;
    and the first word is the command (an empty one, or none, means apply),
    never an option. *)
Theorem parseOptions_round_trip :
  (∀ o, parseOptions (renderOptions o) noCliOptions = o) ∧
  (∀ o1 o2, parseOptions (renderOptions o1 ++ renderOptions o2) noCliOptions
            = laterWins o1 o2) ∧
  (∀ c o, parseArgs (c :: renderOptions o) = (if String.eqb c "" then "apply" else c, o)) ∧
  parseArgs [] = ("apply", noCliOptions).
Proof.
  assert (Hnil : ∀ o, parseOptions (renderOptions o) noCliOptions = o).
  { intros o. rewrite <- (app_nil_r (renderOptions o)), parseOptions_render. simpl.
    by destruct o as [[p|] [c|] []]. }
  split; [exact Hnil|]. split; [|split; [|done]].
  - intros o1 o2. rewrite parseOptions_render.
    rewrite <- (app_nil_r (renderOptions o2)), parseOptions_render. simpl.
    by destruct o1 as [[?|] [?|] []], o2 as [[?|] [?|] []].
  - intros c o. unfold parseArgs. cbn [tail commandOf]. by rewrite Hnil.
Qed.

Lemma isFlag_false a :
  isFlag a = false →
  String.eqb a "--patch" = false ∧ String.eqb a "--category" = false ∧
  String.eqb a "--all" = false.
Proof.
  unfold isFlag. intros H. apply orb_false_elim in H as [H ?].
  apply orb_false_elim in H as [? ?]. done.
Qed.

Lemma parseOptions_sound n :
  ∀ args o, length args ≤ n →
    (cli_all (parseOptions args o) = true → cli_all o = true ∨ "--all" ∈ args) ∧
    (∀ v, cli_patch (parseOptions args o) = Some v →
          cli_patch o = Some v ∨
          ∃ i, args !! i = Some "--patch" ∧ args !! S i = Some v) ∧
    (∀ v, cli_category (parseOptions args o) = Some v →
          cli_category o = Some v ∨
          ∃ i, args !! i = Some "--category" ∧ args !! S i = Some v).
Proof.
  induction n as [|n IH]; intros args o Hlen.
  { destruct args; [|simpl in Hlen; lia]. simpl. split; [|split]; intros; by left. }
  destruct args as [|a [|v rest]].
  - simpl. split; [|split]; intros; by left.
  - simpl. destruct (String.eqb_spec a "--all") as [->|_]; simpl.
    + split; [|split]; intros; [right; left|by left|by left].
    + split; [|split]; intros; by left.
  - cbn [parseOptions].
    assert (Hshift : ∀ (f w : string), (∃ i, (rest : list string) !! i = Some f ∧ rest !! S i = Some w)
                       → ∃ i, (a :: v :: rest) !! i = Some f ∧ (a :: v :: rest) !! S i = Some w).
    { intros f w (i & ? & ?). by exists (S (S i)). }
    assert (Hshift1 : ∀ (f w : string), (∃ i, (v :: rest) !! i = Some f ∧ (v :: rest) !! S i = Some w)
                       → ∃ i, (a :: v :: rest) !! i = Some f ∧ (a :: v :: rest) !! S i = Some w).
    { intros f w (i & ? & ?). by exists (S i). }
    simpl in Hlen.
    destruct (String.eqb_spec a "--patch") as [->|_].
    { destruct (IH rest {| cli_patch := Some v; cli_category := cli_category o;
                           cli_all := cli_all o |} ltac:(lia)) as (Ha & Hp & Hc).
      simpl in *. split; [|split].
      - intros H. destruct (Ha H) as [?|?]; [by left|]. right. by do 2 right.
      - intros w H. destruct (Hp w H) as [[= ->]|?]; [|right; by apply Hshift].
        right. by exists 0.
      - intros w H. destruct (Hc w H) as [?|?]; [by left|right; by apply Hshift]. }
    destruct (String.eqb_spec a "--category") as [->|_].
    { destruct (IH rest {| cli_patch := cli_patch o; cli_category := Some v;
                           cli_all := cli_all o |} ltac:(lia)) as (Ha & Hp & Hc).
      simpl in *. split; [|split].
      - intros H. destruct (Ha H) as [?|?]; [by left|]. right. by do 2 right.
      - intros w H. destruct (Hp w H) as [?|?]; [by left|right; by apply Hshift].
      - intros w H. destruct (Hc w H) as [[= ->]|?]; [|right; by apply Hshift].
        right. by exists 0. }
    destruct (String.eqb_spec a "--all") as [->|_].
    { destruct (IH (v :: rest) {| cli_patch := cli_patch o; cli_category := cli_category o;
                                  cli_all := true |} ltac:(simpl; lia)) as (Ha & Hp & Hc).
      simpl in *. split; [|split].
      - intros _. right. left.
      - intros w H. destruct (Hp w H) as [?|?]; [by left|right; by apply Hshift1].
      - intros w H. destruct (Hc w H) as [?|?]; [by left|right; by apply Hshift1]. }
    destruct (IH (v :: rest) o ltac:(simpl; lia)) as (Ha & Hp & Hc).
    split; [|split].
    + intros H. destruct (Ha H) as [?|?]; [by left|]. right. by right.
    + intros w H. destruct (Hp w H) as [?|?]; [by left|right; by apply Hshift1].
    + intros w H. destruct (Hc w H) as [?|?]; [by left|right; by apply Hshift1].
Qed.

Lemma parseOptions_no_flags args :
  ∀ o, (∀ a, a ∈ args → isFlag a = false) → parseOptions args o = o.
Proof.
  induction args as [|a rest IH]; intros o Hno; [done|].
  destruct (isFlag_false a (Hno a ltac:(left))) as (H1 & H2 & H3).
  cbn [parseOptions]. rewrite H1, H2, H3.
  destruct rest as [|v rest']; [done|]. apply IH. intros b Hb. apply Hno. by right.
Qed.

(** Options come from their flags only: [--all] is set only if the word
    [--all] occurs, a patch or category value only if it directly follows
    its flag, and a command line without any of the three flag words leaves
    the options empty. *)
Theorem parseOptions_only_flags args :
  (cli_all (parseOptions args noCliOptions) = true → "--all" ∈ args) ∧
  (∀ v, cli_patch (parseOptions args noCliOptions) = Some v →
        ∃ i, args !! i = Some "--patch" ∧ args !! S i = Some v) ∧
  (∀ v, cli_category (parseOptions args noCliOptions) = Some v →
        ∃ i, args !! i = Some "--category" ∧ args !! S i = Some v) ∧
  ((∀ a, a ∈ args → isFlag a = false) → parseOptions args noCliOptions = noCliOptions).
Proof.
  destruct (parseOptions_sound (length args) args noCliOptions (le_n _)) as (Ha & Hp & Hc).
  split; [|split; [|split]].
  - intros H. by destruct (Ha H).
  - intros v H. by destruct (Hp v H).
  - intros v H. by destruct (Hc v H).
  - apply parseOptions_no_flags.
Qed.

(** ** Properties of the reports *)

Lemma groupByCategory_fold config filter :
  groupByCategory config filter
  = fold_left pushToGroup (List.filter (shown filter) (patches config)) [].
Proof.
  unfold groupByCategory. generalize (@nil (string * list PatchConfig)).
  induction (patches config) as [|p l IH]; intros g; simpl; [done|].
  destruct (shown filter p); simpl; apply IH.
Qed.

Lemma pushToGroup_keys groups p :
  fst <$> pushToGroup groups p
  = if bool_decide (category p ∈ fst <$> groups) then fst <$> groups
    else (fst <$> groups) ++ [category p].
Proof.
  induction groups as [|[c l] rest IH]; [done|].
  cbn [pushToGroup]. rewrite (fmap_cons fst _ rest). cbn [fst].
  destruct (decide (c = category p)) as [->|Hc].
  - rewrite (bool_decide_eq_true_2 (category p = category p)) by done.
    rewrite fmap_cons. cbn [fst].
    by rewrite (bool_decide_eq_true_2 (category p ∈ category p :: _)) by left.
  - rewrite (bool_decide_eq_false_2 (c = category p)) by done.
    rewrite fmap_cons, IH. cbn [fst].
    destruct (decide (category p ∈ fst <$> rest)) as [Hin|Hin].
    + rewrite (bool_decide_eq_true_2 _ Hin).
      by rewrite (bool_decide_eq_true_2 (category p ∈ c :: _)) by (by right).
    + rewrite (bool_decide_eq_false_2 _ Hin).
      rewrite (bool_decide_eq_false_2 (category p ∈ c :: _)); [done|].
      intros [?|?]%elem_of_cons; [congruence|done].
Qed.

Lemma pushToGroup_elem groups p :
  NoDup (fst <$> groups) →
  ∀ c l, (c, l) ∈ pushToGroup groups p →
    (c ≠ category p ∧ (c, l) ∈ groups) ∨
    (c = category p ∧ ∃ l0, (c, l0) ∈ groups ∧ l = l0 ++ [p]) ∨
    (c = category p ∧ (c ∉ fst <$> groups) ∧ l = [p]).
Proof.
  induction groups as [|[c0 l0] rest IH]; intros Hnd c l Hin.
  - simpl in Hin. apply list_elem_of_singleton in Hin as [= -> ->].
    right. right. split; [done|]. split; [|done]. intros H. by apply elem_of_nil in H.
  - rewrite fmap_cons in Hnd. apply NoDup_cons in Hnd as [Hc0 Hnd]. simpl in *.
    case_bool_decide as Hc.
    + apply elem_of_cons in Hin as [[= -> ->]|Hin].
      * right. left. split; [done|]. exists l0. split; [left|done].
      * left. split; [|by right]. intros ->. apply Hc0. rewrite Hc.
        apply list_elem_of_fmap. by exists (category p, l).
    + apply elem_of_cons in Hin as [[= -> ->]|Hin].
      * left. split; [done|left].
      * destruct (IH Hnd c l Hin) as [[? ?]|[[? (l1 & ? & ?)]|(? & ? & ?)]].
        -- left. split; [done|by right].
        -- right. left. split; [done|]. exists l1. split; [by right|done].
        -- right. right. split; [done|]. split; [|done].
           intros [?|?]%elem_of_cons; [simpl in *; congruence|done].
Qed.

Lemma filter_none {A} (f : A → bool) l : (∀ x, x ∈ l → f x = false) → List.filter f l = [].
Proof.
  induction l as [|a l IH]; intros H; simpl; [done|].
  rewrite (H a) by left. apply IH. intros x Hx. apply H. by right.
Qed.

Lemma pushToGroup_grouped groups processed p :
  grouped groups processed → grouped (pushToGroup groups p) (processed ++ [p]).
Proof.
  intros (Hnd & Hent & Hkeys). split; [|split].
  - rewrite pushToGroup_keys. case_bool_decide as Hin; [done|].
    apply NoDup_app. split; [done|]. split; [|apply NoDup_singleton].
    intros c Hc Hc'. apply list_elem_of_singleton in Hc' as ->. done.
  - intros c l Hin. rewrite List.filter_app. simpl.
    destruct (pushToGroup_elem groups p Hnd c l Hin)
      as [[Hne Hg]|[[-> (l0 & Hg & ->)]|(-> & Hnk & ->)]].
    + rewrite bool_decide_eq_false_2 by done. rewrite app_nil_r. by apply Hent.
    + rewrite bool_decide_eq_true_2 by done. destruct (Hent _ _ Hg) as [<- _].
      split; [done|]. by destruct l0.
    + rewrite bool_decide_eq_true_2 by done. split; [|done].
      rewrite filter_none; [done|]. intros q Hq. apply bool_decide_eq_false_2.
      intros Heq. apply Hnk. rewrite <- Heq. by apply Hkeys.
  - intros q Hq. rewrite pushToGroup_keys.
    apply elem_of_app in Hq as [Hq|Hq%list_elem_of_singleton].
    + case_bool_decide; [by apply Hkeys|]. apply elem_of_app. left. by apply Hkeys.
    + subst q. case_bool_decide; [done|]. apply elem_of_app. right. left.
Qed.

Lemma fold_pushToGroup_grouped l :
  ∀ groups processed, grouped groups processed →
    grouped (fold_left pushToGroup l groups) (processed ++ l).
Proof.
  induction l as [|p l IH]; intros groups processed Hg; simpl.
  - by rewrite app_nil_r.
  - replace (processed ++ p :: l) with ((processed ++ [p]) ++ l)
      by (by rewrite <- app_assoc).
    apply IH. by apply pushToGroup_grouped.
Qed.

Lemma pushToGroup_concat groups p :
  concat (snd <$> pushToGroup groups p) ≡ₚ concat (snd <$> groups) ++ [p].
Proof.
  induction groups as [|[c l] rest IH]; simpl; [done|].
  case_bool_decide; simpl.
  - rewrite <- !app_assoc. f_equiv. apply Permutation_app_comm.
  - rewrite IH. by rewrite app_assoc.
Qed.

Lemma fold_pushToGroup_concat l :
  ∀ groups, concat (snd <$> fold_left pushToGroup l groups) ≡ₚ concat (snd <$> groups) ++ l.
Proof.
  induction l as [|p l IH]; intros groups; simpl; [by rewrite app_nil_r|].
  rewrite IH, pushToGroup_concat. by rewrite <- app_assoc.
Qed.

Lemma groupByCategory_grouped config filter :
  grouped (groupByCategory config filter) (List.filter (shown filter) (patches config)).
Proof.
  rewrite groupByCategory_fold.
  apply (fold_pushToGroup_grouped _ [] []).
  split; [constructor|]. split.
  - intros c l H. by apply elem_of_nil in H.
  - intros p H. by apply elem_of_nil in H.
Qed.

Lemma shownGrouped_perm config filter :
  shownGrouped config filter ≡ₚ List.filter (shown filter) (patches config).
Proof.
  unfold shownGrouped. rewrite groupByCategory_fold.
  by rewrite fold_pushToGroup_concat.
Qed.

(** The grouping behind both reports is a partition of the patches that
    pass the category filter: the categories are distinct, the entry of a
    category holds exactly the shown patches of that category in the order
    of the configuration and is never empty, and all entries together hold
    each shown patch once. *)
Theorem groupByCategory_partition config filter :
  let shownPs := List.filter (shown filter) (patches config) in
  NoDup (fst <$> groupByCategory config filter) ∧
  (∀ c l, (c, l) ∈ groupByCategory config filter ↔
          l = List.filter (fun p => bool_decide (category p = c)) shownPs ∧ l ≠ []) ∧
  shownGrouped config filter ≡ₚ shownPs.
Proof.
  intros shownPs.
  destruct (groupByCategory_grouped config filter) as (Hnd & Hent & Hkeys).
  fold shownPs in Hent, Hkeys. split; [done|]. split.
  - intros c l. split; [apply Hent|]. intros [-> Hne].
    destruct (List.filter _ shownPs) as [|q qs] eqn:Hf; [done|].
    assert (Hq : q ∈ List.filter (λ p, bool_decide (category p = c)) shownPs)
      by (rewrite Hf; left).
    apply list_elem_of_In, filter_In in Hq as [Hq Hcat].
    apply list_elem_of_In in Hq. apply bool_decide_eq_true in Hcat.
    pose proof (Hkeys q Hq) as Hkey. rewrite Hcat in Hkey.
    apply list_elem_of_fmap in Hkey as ([c' l'] & -> & Hin). simpl.
    destruct (Hent _ _ Hin) as [-> _]. simpl in Hf. by rewrite Hf in Hin.
  - apply shownGrouped_perm.
Qed.











(** ** Properties of the single-patch tool *)

Lemma writeMarker_Some a d fs fs' :
  writeMarker a d fs = Some fs' →
  fs' = <[MARKER_FILE := RegularFile (markerJson a d)]> fs ∧
  fs' !! MARKER_FILE = Some (RegularFile (markerJson a d)).
Proof.
  unfold writeMarker. intros H.
  assert (fs' = <[MARKER_FILE := RegularFile (markerJson a d)]> fs) as ->.
  { destruct (fs !! MARKER_FILE) as [[| |]|]; congruence. }
  split; [done|]. apply lookup_insert_eq.
Qed.

Lemma writeMarker_None a d fs :
  writeMarker a d fs = None → fs !! MARKER_FILE = Some Directory.
Proof. unfold writeMarker. by destruct (fs !! MARKER_FILE) as [[| |]|]. Qed.

Lemma isPatchApplied_marker a fs e :
  isPatchApplied a (<[MARKER_FILE := e]> fs) = isPatchApplied a fs.
Proof.
  unfold isPatchApplied, grepQuiet. by rewrite !lookup_insert_ne by done.
Qed.

Lemma agentsCatch_outcomes a msg w :
  let r := agentsCatch a msg w in
  (fst r = AgReturn true →
     isPatchApplied a (afs w) = true ∧ isPatchApplied a (afs (snd r)) = true ∧
     afs (snd r) !! MARKER_FILE = Some (RegularFile (markerJson a descDespite))) ∧
  (fst r = AgReturn false → isPatchApplied a (afs (snd r)) = false ∧ afs (snd r) = afs w) ∧
  (fst r = AgThrow → afs (snd r) !! MARKER_FILE = Some Directory ∧ afs (snd r) = afs w).
Proof.
  unfold agentsCatch. simpl. destruct (isPatchApplied a (afs w)) eqn:Hp.
  - destruct (writeMarker a descDespite (afs w)) as [fs'|] eqn:Hw; simpl.
    + apply writeMarker_Some in Hw as [-> Hm]. split; [|done]. intros _.
      by rewrite isPatchApplied_marker.
    + apply writeMarker_None in Hw. done.
  - simpl. done.
Qed.

(** The three ways the tool's [applyPatch] ends. It returns true only
    with the marker file written, whose description tells how: the changes
    were found beforehand (then no git command ran), or the dry run and the
    application both passed, or a step failed and the changes were found
    afterwards. It returns false only with the changes absent from the tree
    it leaves. It throws only when the marker path is a directory. *)
Theorem agentsApplyPatch_outcomes a w :
  let r := agentsApplyPatch a w in
  (fst r = AgReturn true →
     (isPatchApplied a (afs w) = true ∧ acalls (snd r) = acalls w ∧
      afs (snd r) !! MARKER_FILE = Some (RegularFile (markerJson a descAlready))) ∨
     (isPatchApplied a (afs w) = false ∧
      gitApplyCheck (agents a) (afs w) (PATCH_FILE a) = 0%Z ∧
      fst (gitApply (agents a) (afs w) (PATCH_FILE a)) = 0%Z ∧
      afs (snd r) !! MARKER_FILE = Some (RegularFile (markerJson a descApplied))) ∨
     (isPatchApplied a (afs w) = false ∧ isPatchApplied a (afs (snd r)) = true ∧
      afs (snd r) !! MARKER_FILE = Some (RegularFile (markerJson a descDespite)))) ∧
  (fst r = AgReturn false → isPatchApplied a (afs (snd r)) = false) ∧
  (fst r = AgThrow → afs (snd r) !! MARKER_FILE = Some Directory).
Proof.
  unfold agentsApplyPatch. cbn zeta. simpl.
  destruct (isPatchApplied a (afs w)) eqn:Hp.
  { destruct (writeMarker a descAlready (afs w)) as [fs'|] eqn:Hw; simpl.
    - apply writeMarker_Some in Hw as [-> Hm]. split; [|done]. intros _. by left.
    - apply writeMarker_None in Hw. done. }
  destruct (decide (gitApplyCheck (agents a) (afs w) (PATCH_FILE a) = 0%Z)) as [Hok|Hne].
  - rewrite Hok. change (run 0) with ShellOk. cbv iota.
    destruct (gitApply (agents a) (afs w) (PATCH_FILE a)) as [status fs'] eqn:Ha. simpl.
    destruct (decide (status = 0%Z)) as [->|Hs].
    + change (run 0) with ShellOk. cbv iota.
      destruct (writeMarker a descApplied fs') as [fs''|] eqn:Hw; simpl.
      * apply writeMarker_Some in Hw as [-> Hm]. split; [|done]. intros _.
        right. left. done.
      * match goal with |- context [agentsCatch a ?m ?w'] =>
          destruct (agentsCatch_outcomes a m w') as (Ht & Hf & Hx) end.
        simpl in *. split; [|split].
        -- intros H. destruct (Ht H) as (_ & ? & ?). right. right. done.
        -- intros H. by destruct (Hf H).
        -- intros H. by destruct (Hx H).
    + rewrite (run_error _ Hs).
      match goal with |- context [agentsCatch a ?m ?w'] =>
        destruct (agentsCatch_outcomes a m w') as (Ht & Hf & Hx) end.
      simpl in *. split; [|split].
      * intros H. destruct (Ht H) as (_ & ? & ?). right. right. done.
      * intros H. by destruct (Hf H).
      * intros H. by destruct (Hx H).
  - rewrite (run_error _ Hne).
    match goal with |- context [agentsCatch a ?m ?w'] =>
      destruct (agentsCatch_outcomes a m w') as (Ht & Hf & Hx) end.
    simpl in *. split; [|split].
    + intros H. destruct (Ht H) as (_ & ? & ?). right. right. done.
    + intros H. by destruct (Hf H).
    + intros H. by destruct (Hx H).
Qed.

(** The tool's [revertPatch] returns true exactly when the reverse
    application passes and the marker path, on the tree it leaves, is not a
    directory; the marker is then gone. Otherwise it returns false, and a
    marker that could not be removed is still there although the patch has
    been reversed. *)
Theorem agentsRevertPatch_marker a w :
  let r := agentsRevertPatch a w in
  let reversed := gitApplyReverse a (afs w) (PATCH_FILE a) in
  (fst r = true ↔ fst reversed = 0%Z ∧ snd reversed !! MARKER_FILE ≠ Some Directory) ∧
  (fst r = true → afs (snd r) !! MARKER_FILE = None) ∧
  (fst r = false → fst reversed = 0%Z →
     afs (snd r) = snd reversed ∧ afs (snd r) !! MARKER_FILE = Some Directory).
Proof.
  unfold agentsRevertPatch. cbn zeta. simpl.
  destruct (gitApplyReverse a (afs w) (PATCH_FILE a)) as [status fs'] eqn:Hr. simpl.
  destruct (decide (status = 0%Z)) as [->|Hs].
  2:{ rewrite (run_error _ Hs). simpl. split; [|done]. split; [done|]. by intros [? _]. }
  change (run 0) with ShellOk. cbv iota. unfold existsSync, removeMarker.
  destruct (fs' !! MARKER_FILE) as [e|] eqn:Hm.
  - rewrite bool_decide_eq_true_2 by (by eexists).
    destruct e; simpl.
    + change (run 0) with ShellOk. simpl. split; [|split]; try done.
      intros _. apply lookup_delete_eq.
    + split; [|done]. split; [done|]. by intros [_ ?].
    + change (run 0) with ShellOk. simpl. split; [|split]; try done.
      intros _. apply lookup_delete_eq.
  - rewrite bool_decide_eq_false_2 by (intros [? ?]; done). simpl.
    split; [|done]. split; [|done]. intros _. split; done.
Qed.

(** On the toy host: applying to the pristine tree writes the marker,
    reverting afterwards removes it again. *)
Example agents_apply_then_revert :
  fst (agentsApplyPatch demoAgents pristineAgentsWorld) = AgReturn true ∧
  afs (snd (agentsApplyPatch demoAgents pristineAgentsWorld)) !! MARKER_FILE
  = Some (RegularFile descApplied) ∧
  fst (agentsRevertPatch demoAgents (snd (agentsApplyPatch demoAgents pristineAgentsWorld)))
  = true.
Proof. vm_compute. repeat split; reflexivity. Qed.

(** On the sample registry: with its category declared the list names the
    three patches; without the declaration the report throws before the
    first category heading. *)
Example listPatches_samples :
  completed (listPatches abcCatalog None) = true ∧
  listedIds (printed (listPatches abcCatalog None)) = ["A"; "B"; "C"] ∧
  listPatches abcConfig None = {| printed := [LineListTitle; LineRule]; completed := false |}.
Proof. vm_compute. repeat split; reflexivity. Qed.
